(** * The top-level-code scanner of scripts/check-toplevel-code.py

    A shallow embedding of the script and the properties of its
    per-line tracker, its matcher, its report and its file discovery.

    Text is a list of characters.  A character is a code point below
    256 ([ascii]); the character classes are the ones Python gives a
    [str] on that range.  Integers are unbounded in Python: the brace
    depth is a [Z], a line number a [nat]. *)

From Stdlib Require Import Ascii String DecimalString.
From Stdlib Require Import List Bool Arith ZArith Lia Permutation Sorted.
Import ListNotations.

Open Scope bool_scope.
Open Scope list_scope.

(** ** Text *)

Definition text := list ascii.

Definition str (s : string) : text := list_ascii_of_string s.

Definition code (c : ascii) : N := N_of_ascii c.

(** The double quote, U+0022, and the newline, U+000A. *)
Definition dquote : ascii := ascii_of_nat 34.
Definition newline : ascii := ascii_of_nat 10.

(** [str.isspace] on one character, which is also the class \s of [re]:
    U+0009..U+000D, U+001C..U+0020, U+0085 and U+00A0. *)
Definition isspace (c : ascii) : bool :=
  let n := code c in
  ((9 <=? n) && (n <=? 13) || (28 <=? n) && (n <=? 32)
   || (n =? 133) || (n =? 160))%N.

(** The class \w of [re] on a [str] pattern: [str.isalnum] or the
    underscore.  Below 256 the alphanumerics are the ASCII digits and
    letters, the ordinal indicators, the micro sign, the superscript
    digits, the vulgar fractions and the Latin-1 letters. *)
Definition isalnum (c : ascii) : bool :=
  let n := code c in
  ((48 <=? n) && (n <=? 57) || (65 <=? n) && (n <=? 90)
   || (97 <=? n) && (n <=? 122)
   || (n =? 170) || (n =? 178) || (n =? 179) || (n =? 181)
   || (n =? 185) || (n =? 186) || (188 <=? n) && (n <=? 190)
   || (192 <=? n) && (n <=? 214) || (216 <=? n) && (n <=? 246)
   || (248 <=? n))%N.

Definition isword (c : ascii) : bool :=
  isalnum c || Ascii.eqb c "_"%char.

(** [s.lstrip()], [s.rstrip()] and [s.strip()] without argument. *)
Fixpoint lstrip (s : text) : text :=
  match s with
  | [] => []
  | c :: t => if isspace c then lstrip t else s
  end.

Definition rstrip (s : text) : text := rev (lstrip (rev s)).

Definition strip (s : text) : text := rstrip (lstrip s).

(** [s.startswith(p)]. *)
Fixpoint startswith (p s : text) : bool :=
  match p, s with
  | [], _ => true
  | _ :: _, [] => false
  | a :: p', b :: s' => Ascii.eqb a b && startswith p' s'
  end.

(** [p in s] for two strings: [p] occurs in [s] as a substring. *)
Fixpoint contains (p s : text) : bool :=
  startswith p s ||
  match s with
  | [] => false
  | _ :: t => contains p t
  end.

(** [s.endswith(p)]. *)
Definition endswith (p s : text) : bool := startswith (rev p) (rev s).

(** [s.count(c)] for a one-character [c]. *)
Fixpoint count (c : ascii) (s : text) : nat :=
  match s with
  | [] => 0
  | x :: t => (if Ascii.eqb x c then 1 else 0) + count c t
  end.

(** [content.split(newline)]: the pieces between the newlines, one more
    than there are newlines. *)
Fixpoint split_lines (s : text) : list text :=
  match s with
  | [] => [[]]
  | c :: t =>
      if Ascii.eqb c newline then [] :: split_lines t
      else match split_lines t with
           | [] => [[c]]
           | l :: ls => (c :: l) :: ls
           end
  end.

(** ** String masking

    [re.sub] of the pattern: a double quote, any run of characters other
    than a double quote, a double quote; replaced by two double quotes.
    The search goes left to right: at a double quote that has another
    one after it the span up to that one is replaced and the search goes
    on behind it; a last, unpaired double quote stays. *)

Definition has_dquote (s : text) : bool := existsb (Ascii.eqb dquote) s.

Fixpoint mask_from (inside : bool) (s : text) : text :=
  match s with
  | [] => []
  | c :: t =>
      if inside then
        if Ascii.eqb c dquote then dquote :: mask_from false t
        else mask_from true t
      else if Ascii.eqb c dquote then
        if has_dquote t then dquote :: mask_from true t else c :: t
      else c :: mask_from false t
  end.

Definition mask (s : text) : text := mask_from false s.

(** ** The executable-statement patterns

    Every pattern of the script is a sequence of items, each one
    character wide: a literal character, \s, \w, or \s* (a class under a
    star).  [re.match] anchors at the start of the string and succeeds as
    soon as the whole pattern has matched a prefix; the star is greedy
    and gives characters back. *)

Inductive cclass := CSpace | CWord.

Definition in_class (k : cclass) (c : ascii) : bool :=
  match k with
  | CSpace => isspace c
  | CWord => isword c
  end.

Inductive item :=
| Chr (c : ascii)
| Cls (k : cclass)
| Star (k : cclass).

Definition pattern := list item.

(** A starred class followed by the rest of the pattern, [rest]. *)
Fixpoint match_star (k : cclass) (rest : text -> bool) (s : text) : bool :=
  match s with
  | x :: s' => in_class k x && match_star k rest s'
  | [] => false
  end || rest s.

Fixpoint re_match (p : pattern) (s : text) {struct p} : bool :=
  match p with
  | [] => true
  | Chr c :: p' =>
      match s with
      | x :: s' => Ascii.eqb x c && re_match p' s'
      | [] => false
      end
  | Cls k :: p' =>
      match s with
      | x :: s' => in_class k x && re_match p' s'
      | [] => false
      end
  | Star k :: p' => match_star k (re_match p') s
  end.

Definition lit (s : string) : pattern := map Chr (str s).

Definition exec_patterns : list pattern :=
  [ lit "print" ++ [Star CSpace] ++ lit "(";
    lit "debugPrint" ++ [Star CSpace] ++ lit "(";
    lit "Task" ++ [Star CSpace] ++ lit "{";
    lit "Task." ++ [Cls CWord];
    lit "if" ++ [Cls CSpace];
    lit "guard" ++ [Cls CSpace];
    lit "switch" ++ [Cls CSpace];
    lit "for" ++ [Cls CSpace];
    lit "while" ++ [Cls CSpace];
    lit "repeat" ++ [Cls CSpace];
    lit "do" ++ [Star CSpace] ++ lit "{";
    lit "return" ++ [Cls CSpace];
    lit "try" ++ [Cls CSpace];
    lit "await" ++ [Cls CSpace];
    lit "fatalError" ++ [Star CSpace] ++ lit "(";
    lit "precondition" ++ [Star CSpace] ++ lit "(";
    lit "assert" ++ [Star CSpace] ++ lit "(" ].

(** An item that does not accept the double quote. *)
Definition item_rejects_quote (it : item) : bool :=
  match it with
  | Chr c => negb (Ascii.eqb c dquote)
  | Cls k | Star k => negb (in_class k dquote)
  end.

Definition quote_free (p : pattern) : bool := forallb item_rejects_quote p.

(** [any(re.match(p, stripped) for p in exec_patterns)]. *)
Definition is_exec (stripped : text) : bool :=
  existsb (fun p => re_match p stripped) exec_patterns.

(** ** The per-file scan *)

Definition issue := (nat * text)%type.

Record scan_state := mk_state {
  brace_depth : Z;
  issues : list issue;
  in_multiline_comment : bool
}.

Definition initial_state : scan_state := mk_state 0 [] false.

Definition comment_open : text := str "/*".
Definition comment_close : text := str "*/".
Definition line_comment : text := str "//".
Definition open_brace : ascii := "{"%char.
Definition close_brace : ascii := "}"%char.

(** The body of the loop over the lines, for the line [line] with
    number [i], from the state [st]. *)
Definition scan_line (st : scan_state) (i : nat) (line : text) : scan_state :=
  let stripped := strip line in
  let in1 :=
    if contains comment_open stripped && negb (in_multiline_comment st)
    then true else in_multiline_comment st in
  if contains comment_close stripped then
    mk_state (brace_depth st) (issues st) false
  else if in1 then
    mk_state (brace_depth st) (issues st) in1
  else if startswith line_comment stripped then
    mk_state (brace_depth st) (issues st) in1
  else if match stripped with [] => true | _ => false end then
    mk_state (brace_depth st) (issues st) in1
  else
    let code_line := mask stripped in
    let opens := Z.of_nat (count open_brace code_line) in
    let closes := Z.of_nat (count close_brace code_line) in
    let issues1 :=
      if (brace_depth st =? 0)%Z then
        if is_exec stripped
        then issues st ++ [(i, firstn 120 stripped)]
        else issues st
      else issues st in
    mk_state (brace_depth st + (opens - closes))%Z issues1 in1.

(** The loop [for i, line in enumerate(lines, i)]. *)
Fixpoint scan_from (i : nat) (st : scan_state) (lines : list text) : scan_state :=
  match lines with
  | [] => st
  | line :: rest => scan_from (S i) (scan_line st i line) rest
  end.

Definition scan_lines (lines : list text) : scan_state :=
  scan_from 1 initial_state lines.

(** The scan of a file from its content. *)
Definition scan_content (content : text) : scan_state :=
  scan_lines (split_lines content).

(** The state in which the line with 0-based index [n] is reached. *)
Definition state_before (lines : list text) (n : nat) : scan_state :=
  scan_lines (firstn n lines).

(** A string literal of the scanned language: [s] between double quotes. *)
Definition quoted (s : string) : text := dquote :: str s ++ [dquote].

(** The guards of the loop body, in the words of the tracker: the line
    holds a block-comment-close token; the tracker is inside a block
    comment at the line (it was before the line, or the line opens
    one); the line is a full-line comment; the line is blank. *)
Definition has_close (line : text) : bool :=
  contains comment_close (strip line).

Definition inside_block_comment (st : scan_state) (line : text) : bool :=
  in_multiline_comment st || contains comment_open (strip line).

Definition full_line_comment (line : text) : bool :=
  startswith line_comment (strip line).

Definition blank (line : text) : bool :=
  match strip line with [] => true | _ => false end.

(** The net brace count of the masked line. *)
Definition brace_delta (line : text) : Z :=
  (Z.of_nat (count open_brace (mask (strip line)))
   - Z.of_nat (count close_brace (mask (strip line))))%Z.

(** ** The tracker as the specification words it

    The same loop body, with the matcher applied to the trimmed and
    string-masked line instead of the trimmed line. *)
Definition scan_line_masked (st : scan_state) (i : nat) (line : text) : scan_state :=
  let stripped := strip line in
  let in1 :=
    if contains comment_open stripped && negb (in_multiline_comment st)
    then true else in_multiline_comment st in
  if contains comment_close stripped then
    mk_state (brace_depth st) (issues st) false
  else if in1 then
    mk_state (brace_depth st) (issues st) in1
  else if startswith line_comment stripped then
    mk_state (brace_depth st) (issues st) in1
  else if match stripped with [] => true | _ => false end then
    mk_state (brace_depth st) (issues st) in1
  else
    let code_line := mask stripped in
    let opens := Z.of_nat (count open_brace code_line) in
    let closes := Z.of_nat (count close_brace code_line) in
    let issues1 :=
      if (brace_depth st =? 0)%Z then
        if is_exec code_line
        then issues st ++ [(i, firstn 120 stripped)]
        else issues st
      else issues st in
    mk_state (brace_depth st + (opens - closes))%Z issues1 in1.

Fixpoint scan_from_masked (i : nat) (st : scan_state) (lines : list text)
  : scan_state :=
  match lines with
  | [] => st
  | line :: rest => scan_from_masked (S i) (scan_line_masked st i line) rest
  end.

Definition scan_lines_masked (lines : list text) : scan_state :=
  scan_from_masked 1 initial_state lines.

(** ** The report *)

(** [print(s)] writes [s] and a newline to the standard output. *)
Definition print (s : text) : text := s ++ [newline].

(** The decimal form of a line number, as an f-string renders it. *)
Definition show_nat (n : nat) : text :=
  str (NilEmpty.string_of_uint (Nat.to_uint n)).

Definition header (filepath : text) : text :=
  str "*** ISSUES IN: " ++ filepath ++ str " ***".

Definition issue_line (x : issue) : text :=
  str "  Line " ++ show_nat (fst x) ++ str ": " ++ snd x.

(** What the script prints for one file: nothing without issues, else
    the header and one line per issue. *)
Definition report_file (filepath : text) (iss : list issue) : text :=
  match iss with
  | [] => []
  | _ :: _ => print (header filepath) ++ flat_map (fun x => print (issue_line x)) iss
  end.

Definition marker : text := str "--- Script complete ---".

(** The argument of the last [print]: a newline and the marker. *)
Definition completion : text := newline :: marker.

(** ** File discovery

    A directory tree: a file, or a directory with its listing, which is
    absent when [os.scandir] raises on it (unreadable, or missing), or
    a symbolic link with what it resolves to (a dangling link resolves
    to a file that cannot be opened). *)
#[warnings="-register-all"]
Inductive node :=
| File
| Dir (entries : option (list (text * node)))
| Link (target : node).

(** [entry.is_dir()], which follows symbolic links. *)
Fixpoint is_dir (n : node) : bool :=
  match n with
  | Dir _ => true
  | File => false
  | Link target => is_dir target
  end.

Definition slash : text := str "/".

(** [os.path.join(a, b)] on POSIX. *)
Definition path_join (a b : text) : text :=
  if startswith slash b then b
  else if match a with [] => true | _ => false end || endswith slash a
  then a ++ b
  else a ++ slash ++ b.

(** [os.walk(top)] with its default arguments: top-down, and an error
    of [os.scandir] is ignored ([onerror] is [None]), the directory then
    yielding nothing.  Each directory yields its path, the names of its
    subdirectories and the names of its other entries.  A symbolic link
    to a directory is named among the subdirectories but not entered
    ([followlinks] is [False]); the top itself is listed through a
    link. *)
Fixpoint os_walk (top : text) (n : node) {struct n}
  : list (text * list text * list text) :=
  match n with
  | File => []
  | Dir None => []
  | Dir (Some entries) =>
      (top,
       map fst (filter (fun e => is_dir (snd e)) entries),
       map fst (filter (fun e => negb (is_dir (snd e))) entries))
      :: (fix walk_dirs (es : list (text * node)) :=
            match es with
            | [] => []
            | (name, child) :: rest =>
                match child with
                | Dir _ => os_walk (path_join top name) child
                | File => []
                | Link _ => []
                end ++ walk_dirs rest
            end) entries
  | Link target => os_walk top target
  end.

Definition src_dir : text := str "weather/Sources".
Definition swift_suffix : text := str ".swift".

(** The first loop of the script: the paths of the files found. *)
Definition swift_files (root : node) : list text :=
  flat_map (fun '(r, _, files) =>
              map (path_join r) (filter (endswith swift_suffix) files))
           (os_walk src_dir root).

(** The order of [str]: lexicographic by code point. *)
Fixpoint text_leb (a b : text) : bool :=
  match a, b with
  | [], _ => true
  | _ :: _, [] => false
  | x :: a', y :: b' =>
      (code x <? code y)%N || (code x =? code y)%N && text_leb a' b'
  end.

Fixpoint insert_sorted (x : text) (l : list text) : list text :=
  match l with
  | [] => [x]
  | y :: l' => if text_leb x y then x :: l else y :: insert_sorted x l'
  end.

(** [sorted(l)] for a list of strings. *)
Definition sorted (l : list text) : list text :=
  fold_right insert_sorted [] l.

(** ** The whole run

    The run either completes, with what it wrote to the standard output,
    or ends in an exception that nothing catches. *)
Inductive outcome :=
| Completed (stdout : text)
| Raised (stdout : text).

(** The second loop and the last [print].  [open_file] gives the content
    of a path, or nothing when [open] or [read] raises. *)
Fixpoint run_files (open_file : text -> option text) (paths : list text)
  (out : text) : outcome :=
  match paths with
  | [] => Completed (out ++ print completion)
  | filepath :: rest =>
      match open_file filepath with
      | None => Raised out
      | Some content =>
          run_files open_file rest
            (out ++ report_file filepath (issues (scan_content content)))
      end
  end.

Definition main (root : node) (open_file : text -> option text) : outcome :=
  run_files open_file (sorted (swift_files root)) [].

(** What the run prints for the file at [filepath]. *)
Definition file_block (open_file : text -> option text) (filepath : text)
  : text :=
  match open_file filepath with
  | Some content => report_file filepath (issues (scan_content content))
  | None => []
  end.

(** The order of the sort as a relation. *)
Definition text_le (a b : text) : Prop := text_leb a b = true.

(** A piece of output that adds no marker line in front of what
    follows it. *)
Definition no_marker_line (b : text) : Prop :=
  forall rest,
    count_occ (list_eq_dec ascii_dec) (split_lines (b ++ rest)) marker
    = count_occ (list_eq_dec ascii_dec) (split_lines rest) marker.

(** The report as the specification words it: the blocks of the files,
    then the marker line. *)
Definition report_as_specified (blocks : list text) : text :=
  concat blocks ++ print marker.

(** The lines of an output. *)
Definition output_lines (out : text) : list text := split_lines out.

Definition text_eq_dec : forall a b : text, {a = b} + {a <> b} :=
  list_eq_dec ascii_dec.

(** ** Derived notions and the inputs of the examples *)

(** A line is live when none of the four guards consumes it. *)
Definition live (st : scan_state) (line : text) : bool :=
  negb (has_close line) && negb (inside_block_comment st line)
  && negb (full_line_comment line) && negb (blank line).

(** A line is recorded when it is live, at depth 0, and matches. *)
Definition recorded (st : scan_state) (line : text) : bool :=
  live st line && (brace_depth st =? 0)%Z && is_exec (strip line).

Definition spaces (w : text) : Prop := Forall (fun c => isspace c = true) w.

(** A line whose only brace stands in a trailing comment. *)
Definition trailing_comment_brace : text := str "let x = 1 // }".

(** A call of print whose string argument holds the two characters of
    the close token. *)
Definition close_in_string : text :=
  str "print(" ++ quoted "a */ b" ++ str ")".

Definition scenario_lines : list text :=
  [ str "import Module";
    str "struct Foo {";
    str "    func bar() {";
    str "        print(" ++ quoted "inside" ++ str ")";
    str "    }";
    str "}";
    str "print(" ++ quoted "top level" ++ str ")" ].

(** The content of the file: the lines joined by newlines. *)
Definition scenario_content : text :=
  concat (map (fun l => l ++ [newline]) (removelast scenario_lines))
  ++ last scenario_lines [].

Definition let_brace : text := str "let s = " ++ quoted "{".

(** A file whose first line closes a brace that was never opened. *)
Definition unbalanced_lines : list text :=
  [ str "}"; str "print(" ++ quoted "x" ++ str ")" ].

(** Two listings of the source directory with the same two files. *)
Definition listing_ab : node :=
  Dir (Some [(str "a.swift", File); (str "b.swift", File)]).
Definition listing_ba : node :=
  Dir (Some [(str "b.swift", File); (str "a.swift", File)]).

(** The literal each pattern starts with, in the order of the patterns
    (the literal Task stands for both patterns that start with it). *)
Definition call_keywords : list text :=
  [ str "print"; str "debugPrint"; str "fatalError"; str "precondition";
    str "assert" ].

Definition block_keywords : list text := [ str "Task"; str "do" ].

Definition space_keywords : list text :=
  [ str "if"; str "guard"; str "switch"; str "for"; str "while";
    str "repeat"; str "return"; str "try"; str "await" ].

Definition keywords : list text :=
  call_keywords ++ block_keywords ++ space_keywords.

(** [newline.join(lines)]. *)
Fixpoint join_lines (lines : list text) : text :=
  match lines with
  | [] => []
  | l :: rest =>
      match rest with
      | [] => l
      | _ :: _ => l ++ newline :: join_lines rest
      end
  end.

(** The paths the first loop collects from the walk of [n] at [top]. *)
Definition swift_paths (top : text) (n : node) : list text :=
  flat_map (fun '(r, _, files) =>
              map (path_join r) (filter (endswith swift_suffix) files))
           (os_walk top n).

(** What the walk yields for one entry of a listing at [top]. *)
Definition walk_child (top : text) (e : text * node)
  : list (text * list text * list text) :=
  match snd e with
  | Dir _ => os_walk (path_join top (fst e)) (snd e)
  | File => []
  | Link _ => []
  end.

(** The paths collected below one entry of a listing at [top]. *)
Definition child_paths (top : text) (e : text * node) : list text :=
  match snd e with
  | Dir _ => swift_paths (path_join top (fst e)) (snd e)
  | File => []
  | Link _ => []
  end.

(** A file below [top]: an entry of a listed directory that is no
    directory (a file, or a link that does not resolve to a directory)
    and whose name has the suffix, or such a file below one of its
    subdirectories that is no link; with the path the joins give it.
    The top itself may be a link. *)
Inductive found : text -> node -> text -> Prop :=
| found_here top entries f c :
    In (f, c) entries -> is_dir c = false ->
    endswith swift_suffix f = true ->
    found top (Dir (Some entries)) (path_join top f)
| found_below top entries d sub p :
    In (d, Dir sub) entries ->
    found (path_join top d) (Dir sub) p ->
    found top (Dir (Some entries)) p
| found_through top target p :
    found top target p -> found top (Link target) p.

(** The same tree with its directories listed in another order: at
    every directory the entries keep their names and are the same
    trees up to the order of their own listings, in any permutation. *)
#[warnings="-register-all"]
Inductive relisted : node -> node -> Prop :=
| relisted_file : relisted File File
| relisted_unlisted : relisted (Dir None) (Dir None)
| relisted_link t t' : relisted t t' -> relisted (Link t) (Link t')
| relisted_dir es es' es'' :
    Forall2 (fun e e' => fst e = fst e' /\ relisted (snd e) (snd e')) es es' ->
    Permutation es' es'' ->
    relisted (Dir (Some es)) (Dir (Some es'')).

(** A tree and the same tree without one subdirectory that cannot be
    listed, at any depth below directories that are no links. *)
Inductive pruned : node -> node -> Prop :=
| pruned_here before d after :
    pruned (Dir (Some (before ++ (d, Dir None) :: after)))
           (Dir (Some (before ++ after)))
| pruned_below before d child child' after :
    pruned child child' ->
    pruned (Dir (Some (before ++ (d, child) :: after)))
           (Dir (Some (before ++ (d, child') :: after))).

(** A tree two levels deep with an unlistable directory at the bottom,
    and the same tree without it. *)
Definition tree_with_unlisted : node :=
  Dir (Some [(str "App",
              Dir (Some [(str "a.swift", File); (str "Locked", Dir None)]));
             (str "b.swift", File)]).
Definition tree_without_unlisted : node :=
  Dir (Some [(str "App", Dir (Some [(str "a.swift", File)]));
             (str "b.swift", File)]).

(** A tree with two levels and the same tree with both levels listed
    in another order. *)
Definition tree_listed : node :=
  Dir (Some [(str "App",
              Dir (Some [(str "a.swift", File); (str "c.swift", File)]));
             (str "b.swift", File)]).
Definition tree_relisted : node :=
  Dir (Some [(str "b.swift", File);
             (str "App",
              Dir (Some [(str "c.swift", File); (str "a.swift", File)]))]).

Ltac in_list := repeat ((left; reflexivity) || right).

Ltac literal_free H :=
  cbv in H; repeat (destruct H as [H|H]; [discriminate H|]); try destruct H.

(** ** The tracker, line by line *)

Section Tracker.

Variable st : scan_state.
Variable i : nat.
Variable line : text.

Lemma scan_line_close :
  has_close line = true ->
  scan_line st i line = mk_state (brace_depth st) (issues st) false.
Proof.
  unfold has_close, scan_line. intros ->. reflexivity.
Qed.

Lemma scan_line_inside :
  has_close line = false ->
  inside_block_comment st line = true ->
  scan_line st i line = mk_state (brace_depth st) (issues st) true.
Proof.
  unfold has_close, inside_block_comment, scan_line. intros -> H.
  destruct (in_multiline_comment st); simpl in *.
  - rewrite andb_false_r. reflexivity.
  - rewrite H. reflexivity.
Qed.

Lemma scan_line_full_comment :
  has_close line = false ->
  inside_block_comment st line = false ->
  full_line_comment line = true ->
  scan_line st i line = mk_state (brace_depth st) (issues st) false.
Proof.
  unfold has_close, inside_block_comment, full_line_comment, scan_line.
  intros -> H ->. apply orb_false_iff in H as [-> ->]. reflexivity.
Qed.

Lemma scan_line_blank :
  has_close line = false ->
  inside_block_comment st line = false ->
  full_line_comment line = false ->
  blank line = true ->
  scan_line st i line = mk_state (brace_depth st) (issues st) false.
Proof.
  unfold has_close, inside_block_comment, full_line_comment, blank, scan_line.
  intros -> H -> Hb. apply orb_false_iff in H as [-> ->]. simpl.
  destruct (strip line); [reflexivity | discriminate].
Qed.

Lemma scan_line_live :
  has_close line = false ->
  inside_block_comment st line = false ->
  full_line_comment line = false ->
  blank line = false ->
  scan_line st i line =
  mk_state (brace_depth st + brace_delta line)
    (if (brace_depth st =? 0)%Z && is_exec (strip line)
     then issues st ++ [(i, firstn 120 (strip line))] else issues st)
    false.
Proof.
  unfold has_close, inside_block_comment, full_line_comment, blank,
    scan_line, brace_delta.
  intros -> H -> Hb. apply orb_false_iff in H as [-> ->]. simpl.
  destruct (strip line) as [|c t] eqn:E; [discriminate|].
  destruct (brace_depth st =? 0)%Z; reflexivity.
Qed.

End Tracker.

Lemma live_cases st line :
  live st line = true <->
  has_close line = false /\ inside_block_comment st line = false /\
  full_line_comment line = false /\ blank line = false.
Proof.
  unfold live. rewrite !andb_true_iff, !negb_true_iff. tauto.
Qed.

Lemma scan_line_issues st i line :
  issues (scan_line st i line) =
  issues st ++ (if recorded st line then [(i, firstn 120 (strip line))] else []).
Proof.
  unfold recorded, live.
  destruct (has_close line) eqn:Hc.
  { rewrite scan_line_close by assumption. simpl. now rewrite app_nil_r. }
  destruct (inside_block_comment st line) eqn:Hi.
  { rewrite scan_line_inside by assumption. simpl. now rewrite app_nil_r. }
  destruct (full_line_comment line) eqn:Hf.
  { rewrite scan_line_full_comment by assumption. simpl. now rewrite app_nil_r. }
  destruct (blank line) eqn:Hb.
  { rewrite scan_line_blank by assumption. simpl. now rewrite app_nil_r. }
  rewrite scan_line_live by assumption. simpl.
  destruct ((brace_depth st =? 0)%Z && is_exec (strip line));
    [reflexivity | now rewrite app_nil_r].
Qed.

Lemma scan_line_depth st i line :
  brace_depth (scan_line st i line) =
  (brace_depth st + (if live st line then brace_delta line else 0))%Z.
Proof.
  unfold live.
  destruct (has_close line) eqn:Hc.
  { rewrite scan_line_close by assumption. simpl. lia. }
  destruct (inside_block_comment st line) eqn:Hi.
  { rewrite scan_line_inside by assumption. simpl. lia. }
  destruct (full_line_comment line) eqn:Hf.
  { rewrite scan_line_full_comment by assumption. simpl. lia. }
  destruct (blank line) eqn:Hb.
  { rewrite scan_line_blank by assumption. simpl. lia. }
  rewrite scan_line_live by assumption. reflexivity.
Qed.

(** ** The tracker over a whole file *)

Lemma scan_from_app i st l1 l2 :
  scan_from i st (l1 ++ l2) =
  scan_from (i + length l1) (scan_from i st l1) l2.
Proof.
  revert i st. induction l1 as [|x l1 IH]; intros i st; simpl.
  - now rewrite Nat.add_0_r.
  - rewrite IH. f_equal. lia.
Qed.

Lemma scan_from_snoc i st l x :
  scan_from i st (l ++ [x]) =
  scan_line (scan_from i st l) (i + length l) x.
Proof. now rewrite scan_from_app. Qed.

Lemma firstn_succ_nth {A} (l : list A) n x :
  nth_error l n = Some x -> firstn (S n) l = firstn n l ++ [x].
Proof.
  revert n. induction l as [|a l IH]; intros [|n] H; simpl in *;
    try discriminate.
  - now inversion H.
  - now rewrite (IH n H).
Qed.

(** An issue with number [k] is in the list after the scan of [lines]
    from number [i] exactly when it was there before, or the line with
    that number is recorded in the state the scan reaches it in. *)
Lemma scan_from_issues lines : forall i st k t,
  In (k, t) (issues (scan_from i st lines)) <->
  In (k, t) (issues st) \/
  exists n line,
    k = i + n /\ nth_error lines n = Some line /\
    recorded (scan_from i st (firstn n lines)) line = true /\
    t = firstn 120 (strip line).
Proof.
  induction lines as [|x lines IH] using rev_ind; intros i st k t.
  - simpl. split; [tauto|]. intros [H|(n & l & _ & H & _)]; [assumption|].
    destruct n; discriminate.
  - rewrite scan_from_snoc, scan_line_issues, in_app_iff, IH.
    split.
    + intros [[H|(n & l & Hk & Hn & Hr & Ht)]|H].
      * now left.
      * right. exists n, l. repeat split; try assumption.
        -- rewrite nth_error_app1; [assumption|].
           apply nth_error_Some. congruence.
        -- rewrite firstn_app.
           assert (Hlt : n < length lines) by (apply nth_error_Some; congruence).
           replace (n - length lines) with 0 by lia.
           simpl. now rewrite app_nil_r.
      * right. destruct (recorded _ x) eqn:Hr; [|destruct H].
        destruct H as [H|[]]. inversion H; subst.
        exists (length lines), x. repeat split.
        -- rewrite nth_error_app2 by lia. now rewrite Nat.sub_diag.
        -- rewrite firstn_app, Nat.sub_diag, firstn_all. simpl.
           now rewrite app_nil_r.
    + intros [H|(n & l & Hk & Hn & Hr & Ht)].
      * now left; left.
      * destruct (Nat.lt_ge_cases n (length lines)) as [Hlt|Hge].
        -- left; right. exists n, l.
           rewrite nth_error_app1 in Hn by assumption.
           rewrite firstn_app in Hr.
           replace (n - length lines) with 0 in Hr by lia.
           simpl in Hr. rewrite app_nil_r in Hr. now repeat split.
        -- assert (n = length lines).
           { assert (n < length (lines ++ [x])) by (apply nth_error_Some; congruence).
             rewrite length_app in H. simpl in H. lia. }
           subst n. rewrite nth_error_app2, Nat.sub_diag in Hn by lia.
           simpl in Hn. inversion Hn; subst l.
           rewrite firstn_app, Nat.sub_diag, firstn_all in Hr. simpl in Hr.
           rewrite app_nil_r in Hr. right. rewrite Hr. left. now rewrite Hk, Ht.
Qed.

Lemma scan_lines_issues lines k t :
  In (k, t) (issues (scan_lines lines)) <->
  exists n line,
    k = S n /\ nth_error lines n = Some line /\
    recorded (state_before lines n) line = true /\
    t = firstn 120 (strip line).
Proof.
  unfold scan_lines, state_before, scan_lines.
  rewrite scan_from_issues. simpl. split.
  - intros [[]|H]. exact H.
  - intros H. now right.
Qed.

(** ** Trimming and substring search

    Trimming removes white space only, at the two ends; a token without
    white space occurs in the trimmed line exactly when it occurs in
    the line. *)

Lemma lstrip_split (s : text) : exists w, spaces w /\ s = w ++ lstrip s.
Proof.
  induction s as [|c t (w & Hw & E)]; simpl.
  - exists []. split; [constructor | reflexivity].
  - destruct (isspace c) eqn:Hc.
    + exists (c :: w). split; [now constructor | simpl; now f_equal].
    + exists []. split; [constructor | reflexivity].
Qed.

Lemma rstrip_split (s : text) : exists w, spaces w /\ s = rstrip s ++ w.
Proof.
  destruct (lstrip_split (rev s)) as (w & Hw & E).
  exists (rev w). split.
  - unfold spaces in *. now apply Forall_rev.
  - unfold rstrip. rewrite <- rev_app_distr, <- E. now rewrite rev_involutive.
Qed.

Section Token.

Variable a : ascii.
Variable p' : text.
Let p := a :: p'.
Hypothesis no_space : Forall (fun c => isspace c = false) p.

Lemma token_head_not_space c : isspace c = true -> Ascii.eqb a c = false.
Proof.
  intros Hc. apply Ascii.eqb_neq. intros ->.
  inversion no_space; subst. congruence.
Qed.

Lemma startswith_spaces (w : text) : spaces w -> startswith p w = false.
Proof.
  intros Hw. destruct w as [|c w]; [reflexivity|]. simpl.
  inversion Hw; subst. now rewrite token_head_not_space.
Qed.

Lemma contains_spaces (w : text) : spaces w -> contains p w = false.
Proof.
  induction 1 as [|c w Hc Hw IH]; [reflexivity|].
  change (contains p (c :: w)) with (startswith p (c :: w) || contains p w).
  rewrite IH, startswith_spaces; [reflexivity | now constructor].
Qed.

Lemma contains_lstrip (s : text) : contains p (lstrip s) = contains p s.
Proof.
  induction s as [|c t IH]; [reflexivity|].
  change (lstrip (c :: t)) with (if isspace c then lstrip t else c :: t).
  destruct (isspace c) eqn:Hc; [|reflexivity].
  rewrite IH.
  change (contains p (c :: t)) with (startswith p (c :: t) || contains p t).
  simpl. now rewrite token_head_not_space.
Qed.

End Token.

Lemma startswith_app_spaces (p s w : text) :
  Forall (fun c => isspace c = false) p -> p <> [] -> spaces w ->
  startswith p (s ++ w) = startswith p s.
Proof.
  revert s. induction p as [|a p IH]; intros s Hp Hne Hw; [congruence|].
  destruct s as [|b s].
  - simpl app. rewrite startswith_spaces by assumption. reflexivity.
  - simpl. destruct p as [|a' p]; [reflexivity|].
    rewrite IH; [reflexivity | now inversion Hp | discriminate | assumption].
Qed.

Lemma contains_app_spaces (p s w : text) :
  Forall (fun c => isspace c = false) p -> p <> [] -> spaces w ->
  contains p (s ++ w) = contains p s.
Proof.
  intros Hp Hne Hw. induction s as [|b s IH].
  - destruct p as [|a p]; [congruence|].
    simpl app. rewrite contains_spaces by assumption. reflexivity.
  - change (contains p ((b :: s) ++ w))
      with (startswith p ((b :: s) ++ w) || contains p (s ++ w)).
    rewrite IH, startswith_app_spaces by assumption. reflexivity.
Qed.

Lemma contains_strip (p s : text) :
  Forall (fun c => isspace c = false) p -> p <> [] ->
  contains p (strip s) = contains p s.
Proof.
  intros Hp Hne. unfold strip.
  destruct (rstrip_split (lstrip s)) as (w & Hw & E).
  destruct p as [|a p]; [congruence|].
  rewrite <- (contains_lstrip a p Hp s).
  rewrite E at 2. now rewrite contains_app_spaces.
Qed.

Lemma has_close_line (line : text) :
  has_close line = contains comment_close line.
Proof.
  unfold has_close. apply contains_strip; [|discriminate].
  repeat constructor.
Qed.

(** ** A line with a block-comment-close token *)

(** C4.  A line that holds a block-comment-close token leaves the depth
    and the issues as they were and puts the tracker outside the block
    comment, whatever else the line holds and whatever the state. *)
Theorem close_token_consumes_line (st : scan_state) (i : nat) (line : text) :
  contains comment_close line = true ->
  scan_line st i line = mk_state (brace_depth st) (issues st) false.
Proof.
  intros H. apply scan_line_close. now rewrite has_close_line.
Qed.

Lemma close_token_consumes_line_witness :
  contains comment_close (str "struct Foo { /* note */") = true /\
  scan_line (mk_state 0 [] false) 1 (str "struct Foo { /* note */")
  = mk_state 0 [] false.
Proof.
  split; [reflexivity|].
  apply (close_token_consumes_line (mk_state 0 [] false) 1
           (str "struct Foo { /* note */")).
  reflexivity.
Defined.

(** ** String masking *)

Lemma dquote_eqb_sym (c : ascii) : Ascii.eqb dquote c = Ascii.eqb c dquote.
Proof. apply Ascii.eqb_sym. Qed.

Lemma has_dquote_cons (c : ascii) (t : text) :
  has_dquote (c :: t) = Ascii.eqb c dquote || has_dquote t.
Proof. unfold has_dquote. cbn [existsb]. now rewrite dquote_eqb_sym. Qed.

Lemma mask_cons_quote (t : text) : exists m, mask (dquote :: t) = dquote :: m.
Proof.
  unfold mask. simpl. destruct (has_dquote t); eexists; reflexivity.
Qed.

Lemma mask_cons_other (c : ascii) (t : text) :
  Ascii.eqb c dquote = false -> mask (c :: t) = c :: mask t.
Proof. unfold mask. simpl. now intros ->. Qed.

Lemma mask_from_inside (mid rest : text) :
  has_dquote mid = false ->
  mask_from true (mid ++ dquote :: rest) = dquote :: mask rest.
Proof.
  induction mid as [|c mid IH]; intros H.
  - reflexivity.
  - rewrite has_dquote_cons in H. apply orb_false_iff in H as [Hc Hm].
    cbn [app mask_from]. rewrite Hc. now apply IH.
Qed.

Lemma mask_literal (pre mid rest : text) :
  has_dquote pre = false -> has_dquote mid = false ->
  mask (pre ++ dquote :: mid ++ dquote :: rest)
  = pre ++ dquote :: dquote :: mask rest.
Proof.
  intros Hpre Hmid. induction pre as [|c pre IH].
  - unfold mask at 1. simpl.
    assert (E : has_dquote (mid ++ dquote :: rest) = true).
    { unfold has_dquote. rewrite existsb_app. simpl. apply orb_true_r. }
    rewrite E. now rewrite mask_from_inside.
  - rewrite has_dquote_cons in Hpre. apply orb_false_iff in Hpre as [Hc Hp].
    simpl app.
    rewrite mask_cons_other by assumption. now rewrite IH.
Qed.

Lemma mask_no_quote (s : text) : has_dquote s = false -> mask s = s.
Proof.
  induction s as [|c s IH]; intros H; [reflexivity|].
  rewrite has_dquote_cons in H. apply orb_false_iff in H as [Hc Hs].
  rewrite mask_cons_other by assumption. now rewrite IH.
Qed.

Lemma mask_lone_quote (pre t : text) :
  has_dquote pre = false -> has_dquote t = false ->
  mask (pre ++ dquote :: t) = pre ++ dquote :: t.
Proof.
  intros Hpre Ht. induction pre as [|c pre IH].
  - unfold mask. simpl. now rewrite Ht.
  - rewrite has_dquote_cons in Hpre. apply orb_false_iff in Hpre as [Hc Hp].
    simpl app.
    rewrite mask_cons_other by assumption. now rewrite IH.
Qed.

Lemma count_app (c : ascii) (a b : text) :
  count c (a ++ b) = count c a + count c b.
Proof. induction a as [|x a IH]; simpl; [reflexivity | rewrite IH; lia]. Qed.

(** ** The patterns and the double quote

    No item of any pattern accepts a double quote, so a match never
    reaches past the first double quote of the line, and masking leaves
    the line as it is up to and including that character. *)

Lemma quote_free_cons (it : item) (p : pattern) :
  quote_free (it :: p) = true ->
  item_rejects_quote it = true /\ quote_free p = true.
Proof. unfold quote_free. cbn [forallb]. apply andb_true_iff. Qed.

Lemma re_match_at_quote (p : pattern) :
  quote_free p = true ->
  forall x y, re_match p (dquote :: x) = re_match p (dquote :: y).
Proof.
  induction p as [|it p IH]; intros H x y; [reflexivity|].
  apply quote_free_cons in H as [Hit Hp].
  destruct it as [c|k|k]; cbn [item_rejects_quote] in Hit;
    apply negb_true_iff in Hit; cbn [re_match match_star].
  - rewrite <- dquote_eqb_sym in Hit. now rewrite Hit.
  - now rewrite Hit.
  - rewrite Hit. cbn [andb orb]. now apply IH.
Qed.

Lemma match_star_mask (k : cclass) (rest : text -> bool) :
  in_class k dquote = false ->
  (forall s, rest (mask s) = rest s) ->
  forall s, match_star k rest (mask s) = match_star k rest s.
Proof.
  intros Hk Hrest s. induction s as [|c t IH]; [reflexivity|].
  destruct (Ascii.eqb c dquote) eqn:Hc.
  - apply Ascii.eqb_eq in Hc. subst c.
    specialize (Hrest (dquote :: t)).
    destruct (mask_cons_quote t) as (m & E). rewrite E in *.
    cbn [match_star]. rewrite Hk. cbn [andb orb]. exact Hrest.
  - specialize (Hrest (c :: t)).
    rewrite mask_cons_other in * by assumption.
    cbn [match_star]. now rewrite IH, Hrest.
Qed.

Lemma re_match_mask (p : pattern) :
  quote_free p = true -> forall s, re_match p (mask s) = re_match p s.
Proof.
  induction p as [|it p IH]; intros H s; [reflexivity|].
  pose proof H as Hall.
  apply quote_free_cons in H as [Hit Hp].
  destruct it as [c|k|k].
  - destruct s as [|x t]; [reflexivity|].
    destruct (Ascii.eqb x dquote) eqn:Hx.
    + apply Ascii.eqb_eq in Hx. subst x.
      destruct (mask_cons_quote t) as (m & ->).
      now apply re_match_at_quote.
    + rewrite mask_cons_other by assumption. cbn [re_match]. now rewrite IH.
  - destruct s as [|x t]; [reflexivity|].
    destruct (Ascii.eqb x dquote) eqn:Hx.
    + apply Ascii.eqb_eq in Hx. subst x.
      destruct (mask_cons_quote t) as (m & ->).
      now apply re_match_at_quote.
    + rewrite mask_cons_other by assumption. cbn [re_match]. now rewrite IH.
  - cbn [item_rejects_quote] in Hit. apply negb_true_iff in Hit.
    cbn [re_match]. apply match_star_mask; [assumption | now apply IH].
Qed.

Lemma exec_patterns_quote_free : forallb quote_free exec_patterns = true.
Proof. reflexivity. Qed.

Lemma is_exec_mask (s : text) : is_exec (mask s) = is_exec s.
Proof.
  unfold is_exec. pose proof exec_patterns_quote_free as H.
  induction exec_patterns as [|p ps IH]; [reflexivity|].
  cbn [forallb existsb] in *. apply andb_true_iff in H as [Hp Hps].
  now rewrite re_match_mask, IH.
Qed.

Lemma scan_line_masked_eq (st : scan_state) (i : nat) (line : text) :
  scan_line_masked st i line = scan_line st i line.
Proof. unfold scan_line_masked, scan_line. now rewrite is_exec_mask. Qed.

(** C5.  The matcher gives the same answer on the trimmed line and on
    the trimmed, string-masked line, for every text; hence the scan
    that classifies the masked line, as the specification words it, and
    the scan of the script, which classifies the unmasked one, end in
    the same state for every file. *)
Theorem classification_of_masked_line :
  (forall s, is_exec (mask s) = is_exec s) /\
  (forall lines, scan_lines_masked lines = scan_lines lines).
Proof.
  split; [exact is_exec_mask|].
  intros lines. unfold scan_lines_masked, scan_lines.
  generalize 1, initial_state.
  induction lines as [|l ls IH]; intros i st; [reflexivity|].
  simpl. now rewrite scan_line_masked_eq, IH.
Qed.

(** ** The depth update *)

(** C3, as amended.  The depth update of a line is the count of open
    braces minus the count of close braces on its trimmed, masked text
    when the line is processed, and nothing when the line is consumed
    (it holds a close token, the tracker is inside a block comment, it
    is a full-line comment, or it is blank).  Masking replaces a span
    from a double quote to the next one, the spans paired from the
    left, by two double quotes: what stands between the two is not
    counted. *)
Theorem depth_counts_masked_braces :
  (forall st i line,
     brace_depth (scan_line st i line) =
     (brace_depth st + (if live st line then brace_delta line else 0))%Z) /\
  (forall pre mid rest,
     has_dquote pre = false -> has_dquote mid = false ->
     mask (pre ++ dquote :: mid ++ dquote :: rest)
     = pre ++ dquote :: dquote :: mask rest) /\
  (forall b pre mid rest,
     has_dquote pre = false -> has_dquote mid = false ->
     Ascii.eqb dquote b = false ->
     count b (mask (pre ++ dquote :: mid ++ dquote :: rest))
     = count b pre + count b (mask rest)).
Proof.
  split; [exact scan_line_depth|]. split; [exact mask_literal|].
  intros b pre mid rest Hpre Hmid Hb.
  rewrite mask_literal by assumption.
  rewrite count_app. cbn [count]. rewrite Hb. reflexivity.
Qed.

Lemma depth_counts_masked_braces_witness :
  has_dquote (str "let s = ") = false /\ has_dquote (str "{{") = false /\
  Ascii.eqb dquote open_brace = false /\
  count open_brace (mask (str "let s = " ++ dquote :: str "{{" ++ dquote :: str " {"))
  = count open_brace (str "let s = ") + count open_brace (mask (str " {")).
Proof.
  repeat (split; [reflexivity|]).
  apply (proj2 (proj2 depth_counts_masked_braces) open_brace
           (str "let s = ") (str "{{") (str " {")); reflexivity.
Defined.

(** C3, counterexample.  The line has no double quote and its only
    brace stands behind the line-comment marker; the scan of the line
    from the initial state ends at depth -1. *)
Lemma comment_brace_changes_depth :
  trailing_comment_brace = str "let x = 1 " ++ line_comment ++ str " }" /\
  count open_brace (str "let x = 1 ") = 0 /\
  count close_brace (str "let x = 1 ") = 0 /\
  has_dquote trailing_comment_brace = false /\
  brace_depth (scan_line initial_state 1 trailing_comment_brace) = (-1)%Z.
Proof. vm_compute. repeat split. Qed.

(** ** The eligibility of a line *)

(** C1, as amended.  For every file and every line of it, the line is
    recorded as an issue (it was classified, and matched) if and only if
    its trimmed text holds no block-comment-close token, the tracker is
    not inside a block comment at the line (it was in none before the
    line and the line opens none), the trimmed line is no full-line
    comment and is not blank, the depth before the line is exactly 0,
    and the matcher accepts the trimmed line.  The issue then carries
    the 1-based line number and the first 120 characters of the trimmed
    line. *)
Theorem recorded_iff_eligible (lines : list text) (n : nat) (line t : text) :
  nth_error lines n = Some line ->
  (In (S n, t) (issues (scan_lines lines)) <->
   has_close line = false /\
   in_multiline_comment (state_before lines n) = false /\
   contains comment_open (strip line) = false /\
   full_line_comment line = false /\
   blank line = false /\
   brace_depth (state_before lines n) = 0%Z /\
   is_exec (strip line) = true /\
   t = firstn 120 (strip line)).
Proof.
  intros Hn. rewrite scan_lines_issues. split.
  - intros (m & l & Hk & Hm & Hr & Ht). inversion Hk; subst m.
    rewrite Hn in Hm. inversion Hm; subst l.
    unfold recorded in Hr. apply andb_true_iff in Hr as [Hr He].
    apply andb_true_iff in Hr as [Hl Hd].
    apply live_cases in Hl as (Hc & Hi & Hf & Hb).
    apply orb_false_iff in Hi as [Hi Ho].
    apply Z.eqb_eq in Hd. now repeat split.
  - intros (Hc & Hi & Ho & Hf & Hb & Hd & He & Ht).
    exists n, line. repeat split; try assumption.
    unfold recorded, live, inside_block_comment.
    now rewrite Hc, Hi, Ho, Hf, Hb, Hd, He.
Qed.

Lemma recorded_iff_eligible_witness :
  nth_error [str "print(1)"] 0 = Some (str "print(1)") /\
  (In (1, str "print(1)") (issues (scan_lines [str "print(1)"])) <->
   has_close (str "print(1)") = false /\
   in_multiline_comment (state_before [str "print(1)"] 0) = false /\
   contains comment_open (strip (str "print(1)")) = false /\
   full_line_comment (str "print(1)") = false /\
   blank (str "print(1)") = false /\
   brace_depth (state_before [str "print(1)"] 0) = 0%Z /\
   is_exec (strip (str "print(1)")) = true /\
   str "print(1)" = firstn 120 (strip (str "print(1)"))).
Proof.
  split; [reflexivity|].
  apply (recorded_iff_eligible [str "print(1)"] 0 (str "print(1)")).
  reflexivity.
Defined.

(** C1, counterexample.  The one-line file [close_in_string]: the
    tracker is in no block comment before the line, the line opens
    none, it is no full-line comment, it is not blank, the depth before
    it is 0 and the matcher accepts it; yet no issue is recorded, since
    the line holds the close token and is consumed. *)
Lemma eligible_line_not_recorded :
  in_multiline_comment (state_before [close_in_string] 0) = false /\
  contains comment_open (strip close_in_string) = false /\
  in_multiline_comment (scan_lines [close_in_string]) = false /\
  full_line_comment close_in_string = false /\
  blank close_in_string = false /\
  brace_depth (state_before [close_in_string] 0) = 0%Z /\
  is_exec (strip close_in_string) = true /\
  issues (scan_lines [close_in_string]) = [].
Proof. vm_compute. repeat split. Qed.

(** ** The seven-line scenario *)

(** C2.  The scan of the seven-line file records exactly one issue, with
    line number 7 and the text of the last line; the depth before line 4
    is 2.  The same holds with the lines written without indentation. *)
Theorem scenario_one_issue :
  split_lines scenario_content = scenario_lines /\
  length scenario_lines = 7 /\
  issues (scan_content scenario_content) =
    [(7, str "print(" ++ quoted "top level" ++ str ")")] /\
  brace_depth (state_before scenario_lines 3) = 2%Z /\
  issues (scan_lines (map strip scenario_lines)) =
    [(7, str "print(" ++ quoted "top level" ++ str ")")] /\
  brace_depth (state_before (map strip scenario_lines) 3) = 2%Z.
Proof. vm_compute. repeat split. Qed.

(** ** A brace inside a string literal *)

(** C7.  The line that assigns a one-brace string literal, processed at
    depth 0 outside any comment: the masked line has no brace, the depth
    stays 0, the matcher rejects the line and no issue is added. *)
Theorem let_brace_no_effect (iss : list issue) (i : nat) :
  mask (strip let_brace) = str "let s = " ++ [dquote; dquote] /\
  is_exec (strip let_brace) = false /\
  scan_line (mk_state 0 iss false) i let_brace = mk_state 0 iss false.
Proof. vm_compute. repeat split. Qed.

(** ** The gate on the depth *)

(** C10.  The scan is a total function of the lines; every recorded
    issue is the line of its number, reached at depth exactly 0; and a
    line reached at a negative depth is never recorded. *)
Theorem issues_only_at_depth_zero (lines : list text) :
  (forall k t, In (k, t) (issues (scan_lines lines)) ->
     exists n line,
       k = S n /\ nth_error lines n = Some line /\
       brace_depth (state_before lines n) = 0%Z /\
       t = firstn 120 (strip line)) /\
  (forall n, (brace_depth (state_before lines n) < 0)%Z ->
     forall t, ~ In (S n, t) (issues (scan_lines lines))).
Proof.
  assert (H : forall k t, In (k, t) (issues (scan_lines lines)) ->
     exists n line,
       k = S n /\ nth_error lines n = Some line /\
       brace_depth (state_before lines n) = 0%Z /\
       t = firstn 120 (strip line)).
  { intros k t Hin. apply scan_lines_issues in Hin
      as (n & line & Hk & Hn & Hr & Ht).
    exists n, line. repeat split; try assumption.
    unfold recorded in Hr. apply andb_true_iff in Hr as [Hr _].
    apply andb_true_iff in Hr as [_ Hd]. now apply Z.eqb_eq. }
  split; [exact H|].
  intros n Hneg t Hin. apply H in Hin as (m & line & Hk & _ & Hd & _).
  inversion Hk; subst m. lia.
Qed.

Lemma issues_only_at_depth_zero_witness :
  (brace_depth (state_before unbalanced_lines 1) < 0)%Z /\
  issues (scan_lines unbalanced_lines) = [] /\
  forall t, ~ In (2, t) (issues (scan_lines unbalanced_lines)).
Proof.
  split; [reflexivity|]. split; [reflexivity|].
  apply (proj2 (issues_only_at_depth_zero unbalanced_lines) 1).
  reflexivity.
Defined.

(** ** The order of the paths *)

Lemma code_inj (x y : ascii) : code x = code y -> x = y.
Proof.
  unfold code. intros H.
  rewrite <- (ascii_N_embedding x), <- (ascii_N_embedding y). now rewrite H.
Qed.

Lemma text_leb_total (a : text) : forall b, text_le a b \/ text_le b a.
Proof.
  unfold text_le.
  induction a as [|x a IH]; intros [|y b]; simpl; auto.
  destruct (IH b) as [H|H]; rewrite H, !andb_true_r.
  - destruct (N.ltb_spec (code x) (code y)); [now left|].
    destruct (N.eqb_spec (code x) (code y)); [now left|].
    right. apply orb_true_iff. left. apply N.ltb_lt. lia.
  - destruct (N.ltb_spec (code y) (code x)); [now right|].
    destruct (N.eqb_spec (code y) (code x)); [now right|].
    left. apply orb_true_iff. left. apply N.ltb_lt. lia.
Qed.

Lemma text_leb_antisym (a : text) : forall b, text_le a b -> text_le b a -> a = b.
Proof.
  unfold text_le.
  induction a as [|x a IH]; intros [|y b]; simpl; try congruence.
  intros H1 H2.
  apply orb_true_iff in H1 as [H1|H1]; apply orb_true_iff in H2 as [H2|H2];
    try apply andb_true_iff in H1 as [E1 L1];
    try apply andb_true_iff in H2 as [E2 L2];
    try apply N.ltb_lt in H1; try apply N.ltb_lt in H2;
    try apply N.eqb_eq in E1; try apply N.eqb_eq in E2; try lia.
  f_equal; [now apply code_inj | now apply IH].
Qed.

Lemma text_leb_trans (a : text) : forall b c, text_le a b -> text_le b c -> text_le a c.
Proof.
  unfold text_le.
  induction a as [|x a IH]; intros [|y b] [|z c]; simpl; try congruence.
  intros H1 H2. apply orb_true_iff.
  apply orb_true_iff in H1 as [H1|H1]; apply orb_true_iff in H2 as [H2|H2];
    try apply andb_true_iff in H1 as [E1 L1];
    try apply andb_true_iff in H2 as [E2 L2];
    try apply N.ltb_lt in H1; try apply N.ltb_lt in H2;
    try apply N.eqb_eq in E1; try apply N.eqb_eq in E2.
  - left. apply N.ltb_lt. lia.
  - left. apply N.ltb_lt. lia.
  - left. apply N.ltb_lt. lia.
  - right. apply andb_true_iff. split; [apply N.eqb_eq; lia | eauto].
Qed.

(** ** The sort *)

Lemma insert_sorted_perm (x : text) (l : list text) :
  Permutation (insert_sorted x l) (x :: l).
Proof.
  induction l as [|y l IH]; simpl; [reflexivity|].
  destruct (text_leb x y); [reflexivity|].
  rewrite IH. apply perm_swap.
Qed.

Lemma sorted_perm (l : list text) : Permutation (sorted l) l.
Proof.
  induction l as [|x l IH]; simpl; [reflexivity|].
  rewrite insert_sorted_perm. now constructor.
Qed.

Lemma insert_sorted_ordered (x : text) (l : list text) :
  Sorted text_le l -> Sorted text_le (insert_sorted x l).
Proof.
  induction 1 as [|y l Hs IH Hd]; simpl.
  - repeat constructor.
  - destruct (text_leb x y) eqn:E.
    + constructor; [now constructor | now constructor].
    + constructor; [assumption|].
      assert (Hyx : text_le y x).
      { destruct (text_leb_total x y) as [H|H]; [unfold text_le in H; congruence | exact H]. }
      destruct l as [|z l]; simpl.
      * now constructor.
      * destruct (text_leb x z); constructor; [assumption|].
        now inversion Hd.
Qed.

Lemma sorted_ordered (l : list text) : StronglySorted text_le (sorted l).
Proof.
  apply Sorted_StronglySorted.
  - intros a b c. apply text_leb_trans.
  - induction l as [|x l IH]; simpl; [constructor|].
    now apply insert_sorted_ordered.
Qed.

Lemma ordered_unique (l1 : list text) : forall l2,
  StronglySorted text_le l1 -> StronglySorted text_le l2 ->
  Permutation l1 l2 -> l1 = l2.
Proof.
  induction l1 as [|a l1 IH]; intros l2 H1 H2 P.
  - now apply Permutation_nil in P.
  - destruct l2 as [|b l2].
    { symmetry in P. now apply Permutation_nil in P. }
    inversion H1 as [|? ? S1 F1]; inversion H2 as [|? ? S2 F2]; subst.
    assert (E : a = b).
    { assert (Ha : In a (b :: l2)) by (eapply Permutation_in; [exact P | now left]).
      assert (Hb : In b (a :: l1)).
      { eapply Permutation_in; [symmetry; exact P | now left]. }
      destruct Ha as [Ha|Ha]; [congruence|].
      destruct Hb as [Hb|Hb]; [congruence|].
      rewrite Forall_forall in F1, F2.
      apply text_leb_antisym; [now apply F1 | now apply F2]. }
    subst b. f_equal. apply IH; try assumption.
    now apply Permutation_cons_inv in P.
Qed.

Lemma sorted_of_perm (l1 l2 : list text) :
  Permutation l1 l2 -> sorted l1 = sorted l2.
Proof.
  intros P. apply ordered_unique; try apply sorted_ordered.
  rewrite !sorted_perm. exact P.
Qed.

(** ** Failures of input and output *)

Lemma In_sorted (l : list text) (p : text) : In p (sorted l) <-> In p l.
Proof.
  split; apply Permutation_in; [apply sorted_perm|].
  symmetry. apply sorted_perm.
Qed.

Lemma run_files_raised (open_file : text -> option text) (paths : list text) :
  forall out,
  (exists p, In p paths /\ open_file p = None) ->
  exists out', run_files open_file paths out = Raised out'.
Proof.
  induction paths as [|q paths IH]; intros out (p & Hin & Hp).
  - destruct Hin.
  - simpl. destruct (open_file q) as [content|] eqn:Hq.
    + apply IH. exists p. split; [|assumption].
      destruct Hin as [->|Hin]; [congruence | assumption].
    + now exists out.
Qed.

Lemma run_files_completed (open_file : text -> option text) (paths : list text) :
  forall out,
  (forall p, In p paths -> open_file p <> None) ->
  run_files open_file paths out =
  Completed (out ++ flat_map (file_block open_file) paths ++ print completion).
Proof.
  induction paths as [|q paths IH]; intros out H.
  - reflexivity.
  - simpl. unfold file_block at 1.
    destruct (open_file q) as [content|] eqn:Hq.
    + rewrite IH by (intros p Hp; apply H; now right).
      now rewrite <- !app_assoc.
    + exfalso. apply (H q); [now left | assumption].
Qed.

(** C6, as amended.  When the root directory cannot be listed, or is
    no directory, the walk yields nothing, no file is opened and the run
    completes with the blank line and the marker as its whole output:
    the error is not propagated.  A discovered file that cannot be
    opened or read does end the run in an exception. *)
Theorem unreadable_root_completes :
  (forall open_file,
     main (Dir None) open_file = Completed (print completion)) /\
  (forall open_file,
     main File open_file = Completed (print completion)) /\
  (forall root open_file p,
     In p (swift_files root) -> open_file p = None ->
     exists out, main root open_file = Raised out).
Proof.
  split; [reflexivity|]. split; [reflexivity|].
  intros root open_file p Hin Hp. unfold main.
  apply run_files_raised. exists p. split; [|assumption].
  now apply In_sorted.
Qed.

Lemma unreadable_root_completes_witness :
  In (str "weather/Sources/a.swift") (swift_files listing_ab) /\
  exists out, main listing_ab (fun _ => None) = Raised out.
Proof.
  assert (Hin : In (str "weather/Sources/a.swift") (swift_files listing_ab)).
  { vm_compute. now left. }
  split; [exact Hin|].
  apply (proj2 (proj2 unreadable_root_completes) listing_ab (fun _ => None)
           (str "weather/Sources/a.swift") Hin).
  reflexivity.
Defined.

(** C6, counterexample.  With a root directory that cannot be listed
    the run does not fail: it completes, and its output is the same as
    that of a run over an empty directory. *)
Lemma unreadable_root_not_raised :
  main (Dir None) (fun _ => None) = Completed (print completion) /\
  (forall out, main (Dir None) (fun _ => None) <> Raised out) /\
  main (Dir None) (fun _ => None) = main (Dir (Some [])) (fun _ => None).
Proof.
  split; [reflexivity|]. split; [|reflexivity].
  intros out. vm_compute. discriminate.
Qed.

(** ** The lines of the output *)

Lemma split_lines_print (l rest : text) :
  ~ In newline l -> split_lines (l ++ newline :: rest) = l :: split_lines rest.
Proof.
  induction l as [|c l IH]; intros H; cbn [app split_lines].
  - now rewrite Ascii.eqb_refl.
  - assert (Hc : Ascii.eqb c newline = false).
    { apply Ascii.eqb_neq. intros ->. apply H. now left. }
    rewrite Hc, IH; [reflexivity|]. intros Hin. apply H. now right.
Qed.

Lemma split_lines_no_newline (s : text) :
  forall l, In l (split_lines s) -> ~ In newline l.
Proof.
  induction s as [|c t IH]; intros l; cbn [split_lines].
  - intros [<-|[]] [].
  - destruct (Ascii.eqb c newline) eqn:Hc.
    + intros [<-|H]; [intros [] | now apply IH].
    + apply Ascii.eqb_neq in Hc.
      destruct (split_lines t) as [|h r].
      * intros [<-|[]] [E|[]]. congruence.
      * intros [<-|H].
        -- intros [E|Hin]; [congruence|]. apply (IH h); [now left | assumption].
        -- apply IH. now right.
Qed.

Lemma lstrip_incl (s : text) (c : ascii) : In c (lstrip s) -> In c s.
Proof.
  induction s as [|x t IH]; [trivial|]. cbn [lstrip].
  destruct (isspace x); [intros H; right; now apply IH | trivial].
Qed.

Lemma strip_incl (s : text) (c : ascii) : In c (strip s) -> In c s.
Proof.
  unfold strip, rstrip. intros H.
  apply lstrip_incl. apply in_rev. apply lstrip_incl. now apply in_rev in H.
Qed.

Lemma firstn_incl {A} (n : nat) (l : list A) (x : A) :
  In x (firstn n l) -> In x l.
Proof.
  revert l. induction n as [|n IH]; intros [|a l]; simpl; try tauto.
  intros [->|H]; [now left | right; now apply IH].
Qed.

Lemma show_uint_no_newline (d : Decimal.uint) :
  ~ In newline (str (NilEmpty.string_of_uint d)).
Proof.
  induction d; cbn [NilEmpty.string_of_uint str list_ascii_of_string];
    try (intros [E|H]; [discriminate E | now apply IHd]).
  intros [].
Qed.

Lemma issue_text_bounds (content : text) (k : nat) (t : text) :
  In (k, t) (issues (scan_content content)) ->
  length t <= 120 /\ ~ In newline t.
Proof.
  unfold scan_content. intros H.
  apply scan_lines_issues in H as (n & line & _ & Hn & _ & ->).
  split; [apply firstn_le_length|].
  intros Hin. apply firstn_incl, strip_incl in Hin.
  apply nth_error_In in Hn. now apply (split_lines_no_newline content line).
Qed.

Lemma header_no_newline (filepath : text) :
  ~ In newline filepath -> ~ In newline (header filepath).
Proof.
  intros Hp H. unfold header in H.
  apply in_app_or in H as [H|H]; [literal_free H|].
  apply in_app_or in H as [H|H]; [contradiction | literal_free H].
Qed.

Lemma issue_line_no_newline (x : issue) :
  ~ In newline (snd x) -> ~ In newline (issue_line x).
Proof.
  intros Ht H. unfold issue_line in H.
  apply in_app_or in H as [H|H]; [literal_free H|].
  apply in_app_or in H as [H|H]; [now apply show_uint_no_newline in H|].
  apply in_app_or in H as [H|H]; [literal_free H | contradiction].
Qed.

Lemma header_not_marker (filepath : text) : header filepath <> marker.
Proof.
  intros E. apply (f_equal (hd newline)) in E. cbv in E. discriminate E.
Qed.

Lemma issue_line_not_marker (x : issue) : issue_line x <> marker.
Proof.
  intros E. apply (f_equal (hd newline)) in E. cbv in E. discriminate E.
Qed.

Lemma no_marker_nil : no_marker_line [].
Proof. intros rest. reflexivity. Qed.

Lemma no_marker_app (a b : text) :
  no_marker_line a -> no_marker_line b -> no_marker_line (a ++ b).
Proof.
  intros Ha Hb rest. rewrite <- app_assoc. now rewrite Ha, Hb.
Qed.

Lemma no_marker_print (l : text) :
  ~ In newline l -> l <> marker -> no_marker_line (print l).
Proof.
  intros Hn Hm rest. unfold print. rewrite <- app_assoc. cbn [app].
  rewrite split_lines_print by assumption.
  now apply count_occ_cons_neq.
Qed.

Lemma no_marker_flat_map {A} (f : A -> text) (l : list A) :
  (forall x, In x l -> no_marker_line (f x)) -> no_marker_line (flat_map f l).
Proof.
  induction l as [|x l IH]; intros H; cbn [flat_map].
  - apply no_marker_nil.
  - apply no_marker_app; [apply H; now left|].
    apply IH. intros y Hy. apply H. now right.
Qed.

Lemma no_marker_report_file (filepath : text) (iss : list issue) :
  ~ In newline filepath ->
  (forall x, In x iss -> ~ In newline (snd x)) ->
  no_marker_line (report_file filepath iss).
Proof.
  intros Hp Hi. unfold report_file. destruct iss as [|x iss].
  - apply no_marker_nil.
  - apply no_marker_app.
    + apply no_marker_print;
        [now apply header_no_newline | apply header_not_marker].
    + apply no_marker_flat_map. intros y Hy. apply no_marker_print.
      * apply issue_line_no_newline. now apply Hi.
      * apply issue_line_not_marker.
Qed.

Lemma no_marker_file_block (open_file : text -> option text) (filepath : text) :
  ~ In newline filepath -> no_marker_line (file_block open_file filepath).
Proof.
  intros Hp. unfold file_block. destruct (open_file filepath) as [content|].
  - apply no_marker_report_file; [assumption|].
    intros [k t] Hin. now apply issue_text_bounds in Hin.
  - apply no_marker_nil.
Qed.

(** ** The report *)

(** C8, as amended.  A run in which every discovered file can be read
    completes, and its output is, for each discovered file in sorted
    order, the block of the file, then one empty line, then the marker
    line.  The block of a file without issues is empty; the block of a
    file with issues is the header line and one line per issue, in the
    order of the issues, whose text is at most 120 characters long.
    When no path holds a newline, the marker line occurs exactly once
    among the lines of the output. *)
Theorem report_layout (root : node) (open_file : text -> option text) :
  (forall p, In p (swift_files root) -> open_file p <> None) ->
  let out := flat_map (file_block open_file) (sorted (swift_files root))
             ++ newline :: print marker in
  main root open_file = Completed out /\
  (forall p content, open_file p = Some content ->
     file_block open_file p =
     match issues (scan_content content) with
     | [] => []
     | x :: iss =>
         print (header p) ++ flat_map (fun y => print (issue_line y)) (x :: iss)
     end) /\
  (forall content k t,
     In (k, t) (issues (scan_content content)) -> length t <= 120) /\
  ((forall p, In p (swift_files root) -> ~ In newline p) ->
   count_occ text_eq_dec (output_lines out) marker = 1).
Proof.
  intros Hopen out. split; [|split; [|split]].
  - unfold main. rewrite run_files_completed.
    + reflexivity.
    + intros p Hp. apply Hopen. now apply In_sorted.
  - intros p content Hp. unfold file_block, report_file. rewrite Hp.
    destruct (issues (scan_content content)); reflexivity.
  - intros content k t H. now apply issue_text_bounds in H.
  - intros Hpaths. unfold out, output_lines, text_eq_dec.
    rewrite (no_marker_flat_map (file_block open_file)).
    + reflexivity.
    + intros p Hp. apply no_marker_file_block. apply Hpaths.
      now apply In_sorted.
Qed.

Lemma report_layout_witness :
  (forall p, In p (swift_files listing_ab) ->
     (fun _ : text => Some (str "print(1)")) p <> None) /\
  (forall p, In p (swift_files listing_ab) -> ~ In newline p) /\
  main listing_ab (fun _ => Some (str "print(1)")) =
  Completed (flat_map (file_block (fun _ => Some (str "print(1)")))
               (sorted (swift_files listing_ab))
             ++ newline :: print marker) /\
  count_occ text_eq_dec
    (output_lines
       (flat_map (file_block (fun _ => Some (str "print(1)")))
          (sorted (swift_files listing_ab))
        ++ newline :: print marker)) marker = 1.
Proof.
  assert (H : forall p, In p (swift_files listing_ab) ->
     (fun _ : text => Some (str "print(1)")) p <> None).
  { intros p _. discriminate. }
  assert (N : forall p, In p (swift_files listing_ab) -> ~ In newline p).
  { intros p Hp Hn. vm_compute in Hp.
    destruct Hp as [<-|[<-|[]]]; literal_free Hn. }
  split; [exact H|]. split; [exact N|].
  pose proof (report_layout listing_ab (fun _ => Some (str "print(1)")) H)
    as (Hmain & _ & _ & Hcount).
  split; [exact Hmain | exact (Hcount N)].
Defined.

(** C8, counterexample.  The run over an empty source directory prints
    an empty line before the marker line: its output has the lines
    empty, marker, empty (the last being what follows the final
    newline), and differs from the report worded as the blocks followed
    by the marker line alone. *)
Lemma report_has_blank_line :
  main (Dir (Some [])) (fun _ => None) = Completed (newline :: print marker) /\
  output_lines (newline :: print marker) = [[]; marker; []] /\
  report_as_specified [] = print marker /\
  output_lines (report_as_specified []) = [marker; []] /\
  Completed (report_as_specified []) <> main (Dir (Some [])) (fun _ => None).
Proof.
  repeat split; try reflexivity. vm_compute. discriminate.
Qed.

(** * Further properties of the scan *)

(** ** The order of the issues *)

Lemma scan_from_new_issues (lines : list text) : forall i st,
  exists new,
    issues (scan_from i st lines) = issues st ++ new /\
    StronglySorted lt (map fst new) /\
    Forall (fun x => i <= fst x < i + length lines) new.
Proof.
  induction lines as [|l lines IH]; intros i st.
  - exists []. cbn [scan_from]. rewrite app_nil_r.
    repeat split; constructor.
  - cbn [scan_from]. destruct (IH (S i) (scan_line st i l)) as (new & E & Hs & F).
    rewrite scan_line_issues in E.
    exists ((if recorded st l then [(i, firstn 120 (strip l))] else []) ++ new).
    split; [now rewrite E, app_assoc|].
    assert (F' : Forall (fun x => i <= fst x < i + length (l :: lines)) new).
    { eapply Forall_impl; [|exact F]. cbn [length]. intros x Hx. lia. }
    destruct (recorded st l); cbn [app map]; split; try assumption.
    + constructor; [assumption|].
      apply Forall_forall. intros k Hk. apply in_map_iff in Hk as (x & <- & Hx).
      rewrite Forall_forall in F. specialize (F x Hx).
      cbn beta in F. cbn [fst]. lia.
    + constructor; [|assumption]. cbn [fst length]. lia.
Qed.

(** X1.  The issues of a file come in strictly ascending order of
    their line numbers, so no line is reported twice, and every number
    is the number of a line of the file. *)
Theorem issue_numbers_ascending (lines : list text) :
  StronglySorted lt (map fst (issues (scan_lines lines))) /\
  Forall (fun x => 1 <= fst x <= length lines) (issues (scan_lines lines)) /\
  length (issues (scan_lines lines)) <= length lines.
Proof.
  unfold scan_lines.
  destruct (scan_from_new_issues lines 1 initial_state) as (new & E & Hs & F).
  cbn [issues initial_state app] in E. rewrite E.
  split; [exact Hs|].
  assert (B : Forall (fun x => 1 <= fst x <= length lines) new).
  { eapply Forall_impl; [|exact F]. intros x Hx. cbn beta in Hx. lia. }
  split; [exact B|].
  clear E. revert Hs F. generalize 1 as i. generalize (length lines) as n.
  clear B. induction new as [|x new IH]; intros n i Hs F; cbn [length map] in *.
  - lia.
  - inversion Hs as [|? ? Hs' L]; subst. inversion F as [|? ? Hx F']; subst.
    destruct n as [|n]; [lia|].
    assert (length new <= n); [|lia].
    apply (IH n (S i)); [exact Hs'|].
    apply Forall_forall. intros y Hy.
    rewrite Forall_forall in L, F'.
    specialize (F' y Hy). specialize (L (fst y) (in_map fst _ _ Hy)).
    cbn beta in *. lia.
Qed.

(** ** White space around a line *)

Lemma lstrip_spaces (w : text) : spaces w -> lstrip w = [].
Proof.
  induction 1 as [|c w Hc Hw IH]; [reflexivity|].
  cbn [lstrip]. now rewrite Hc.
Qed.

Lemma lstrip_app_left (w s : text) : spaces w -> lstrip (w ++ s) = lstrip s.
Proof.
  induction 1 as [|c w Hc Hw IH]; [reflexivity|].
  cbn [app lstrip]. now rewrite Hc.
Qed.

Lemma lstrip_app_right (s w : text) :
  spaces w ->
  lstrip (s ++ w) = match lstrip s with [] => [] | _ :: _ => lstrip s ++ w end.
Proof.
  intros Hw. induction s as [|c t IH].
  - cbn [app lstrip]. now apply lstrip_spaces.
  - cbn [app lstrip]. destruct (isspace c); [exact IH | reflexivity].
Qed.

Lemma rstrip_app_right (s w : text) : spaces w -> rstrip (s ++ w) = rstrip s.
Proof.
  intros Hw. unfold rstrip. rewrite rev_app_distr.
  rewrite lstrip_app_left; [reflexivity|].
  unfold spaces in *. now apply Forall_rev.
Qed.

Lemma rstrip_nil : rstrip [] = [].
Proof. reflexivity. Qed.

Lemma strip_padded (w1 s w2 : text) :
  spaces w1 -> spaces w2 -> strip (w1 ++ s ++ w2) = strip s.
Proof.
  intros H1 H2. unfold strip.
  rewrite lstrip_app_left by assumption.
  rewrite lstrip_app_right by assumption.
  destruct (lstrip s) as [|c t] eqn:E; [reflexivity|].
  now apply rstrip_app_right.
Qed.

Lemma strip_split (s : text) :
  exists w1 w2, spaces w1 /\ spaces w2 /\ s = w1 ++ strip s ++ w2.
Proof.
  destruct (lstrip_split s) as (w1 & H1 & E1).
  destruct (rstrip_split (lstrip s)) as (w2 & H2 & E2).
  exists w1, w2. repeat split; try assumption.
  unfold strip. now rewrite <- E2.
Qed.

Lemma strip_idempotent (s : text) : strip (strip s) = strip s.
Proof.
  destruct (strip_split s) as (w1 & w2 & H1 & H2 & E).
  rewrite E at 2. symmetry. now apply strip_padded.
Qed.

Lemma scan_line_strip (st : scan_state) (i : nat) (line : text) :
  scan_line st i (strip line) = scan_line st i line.
Proof. unfold scan_line. now rewrite strip_idempotent. Qed.

(** X2.  White space at the two ends of a line is without effect:
    trimming is idempotent, a line with indentation and trailing white
    space is scanned as the line without them, and so is a whole file. *)
Theorem indentation_is_ignored :
  (forall s, strip (strip s) = strip s) /\
  (forall st i w1 line w2, spaces w1 -> spaces w2 ->
     scan_line st i (w1 ++ line ++ w2) = scan_line st i line) /\
  (forall lines, scan_lines (map strip lines) = scan_lines lines).
Proof.
  split; [exact strip_idempotent|]. split.
  - intros st i w1 line w2 H1 H2.
    rewrite <- (scan_line_strip st i (w1 ++ line ++ w2)).
    rewrite strip_padded by assumption. apply scan_line_strip.
  - intros lines. unfold scan_lines. generalize 1, initial_state.
    induction lines as [|l ls IH]; intros i st; [reflexivity|].
    cbn [map scan_from]. now rewrite scan_line_strip, IH.
Qed.

Lemma indentation_is_ignored_witness :
  spaces (str "    ") /\ spaces (str "  ") /\
  scan_line initial_state 1 (str "    " ++ str "print(1)" ++ str "  ")
  = scan_line initial_state 1 (str "print(1)").
Proof.
  assert (H1 : spaces (str "    ")) by (repeat constructor).
  assert (H2 : spaces (str "  ")) by (repeat constructor).
  split; [exact H1|]. split; [exact H2|].
  exact (proj1 (proj2 indentation_is_ignored) initial_state 1
           (str "    ") (str "print(1)") (str "  ") H1 H2).
Defined.

(** ** Lines that leave the tracker as it is *)

Lemma strip_spaces (w : text) : spaces w -> strip w = [].
Proof. intros H. unfold strip. now rewrite lstrip_spaces. Qed.

Lemma state_eta (st : scan_state) :
  mk_state (brace_depth st) (issues st) (in_multiline_comment st) = st.
Proof. now destruct st. Qed.

Lemma scan_line_skipped (st : scan_state) (i : nat) (line : text) :
  has_close line = false ->
  contains comment_open (strip line) = false ->
  blank line = true \/ full_line_comment line = true ->
  scan_line st i line = st.
Proof.
  intros Hc Ho H. rewrite <- (state_eta st) at 2.
  destruct (in_multiline_comment st) eqn:Hin.
  - apply scan_line_inside; [assumption|].
    unfold inside_block_comment. now rewrite Hin.
  - assert (Hi : inside_block_comment st line = false).
    { unfold inside_block_comment. now rewrite Hin, Ho. }
    destruct (full_line_comment line) eqn:Hf.
    + now apply scan_line_full_comment.
    + destruct H as [H|H]; [|discriminate]. now apply scan_line_blank.
Qed.

(** X3.  A line of white space only, the empty line included, and a
    full-line comment that holds neither block-comment token leave the
    state of the tracker unchanged, in whatever state they are met. *)
Theorem skipped_lines_keep_state (st : scan_state) (i : nat) :
  (forall w, spaces w -> scan_line st i w = st) /\
  (forall line,
     full_line_comment line = true ->
     contains comment_open line = false ->
     contains comment_close line = false ->
     scan_line st i line = st).
Proof.
  split.
  - intros w Hw. apply scan_line_skipped.
    + unfold has_close. now rewrite strip_spaces.
    + now rewrite strip_spaces.
    + left. unfold blank. now rewrite strip_spaces.
  - intros line Hf Ho Hc. apply scan_line_skipped.
    + now rewrite has_close_line.
    + rewrite contains_strip; [assumption | repeat constructor | discriminate].
    + now right.
Qed.

Lemma skipped_lines_keep_state_witness :
  spaces (str "   ") /\
  scan_line (mk_state 2 [] false) 5 (str "   ") = mk_state 2 [] false /\
  scan_line (mk_state 2 [] false) 5 (str "  // print(1) {") =
  mk_state 2 [] false.
Proof.
  assert (H : spaces (str "   ")) by (repeat constructor).
  split; [exact H|]. split.
  - exact (proj1 (skipped_lines_keep_state (mk_state 2 [] false) 5) _ H).
  - apply (proj2 (skipped_lines_keep_state (mk_state 2 [] false) 5));
      reflexivity.
Defined.

(** ** Block comments over several lines *)

Lemma scan_from_in_comment (body : list text) : forall i st,
  in_multiline_comment st = true ->
  Forall (fun l => contains comment_close l = false) body ->
  scan_from i st body = st.
Proof.
  induction body as [|l body IH]; intros i st Hin Hb; [reflexivity|].
  inversion Hb as [|? ? Hl Hb']; subst. cbn [scan_from].
  assert (E : scan_line st i l = st).
  { rewrite <- (state_eta st) at 2. rewrite Hin.
    apply scan_line_inside; [now rewrite has_close_line|].
    unfold inside_block_comment. now rewrite Hin. }
  rewrite E. now apply IH.
Qed.

(** X4.  A block comment over several lines is invisible to the scan.
    From a state outside any comment, a line with an open token and no
    close token, any lines without a close token, and then a line with
    a close token bring the tracker back to the state it started in:
    no depth change, no issue, whatever these lines hold.  Without the
    closing line the tracker stays inside the comment, and no later
    line without a close token changes depth or issues. *)
Theorem comment_block_is_skipped
  (st : scan_state) (i : nat) (opening closing : text) (body : list text) :
  in_multiline_comment st = false ->
  contains comment_open opening = true ->
  contains comment_close opening = false ->
  Forall (fun l => contains comment_close l = false) body ->
  scan_from i st (opening :: body) =
    mk_state (brace_depth st) (issues st) true /\
  (contains comment_close closing = true ->
   scan_from i st (opening :: body ++ [closing]) = st).
Proof.
  intros Hin Ho Hc Hb.
  assert (E : scan_line st i opening =
              mk_state (brace_depth st) (issues st) true).
  { apply scan_line_inside; [now rewrite has_close_line|].
    unfold inside_block_comment. rewrite Hin. cbn [orb].
    rewrite contains_strip; [assumption | repeat constructor | discriminate]. }
  assert (E1 : scan_from i st (opening :: body) =
               mk_state (brace_depth st) (issues st) true).
  { cbn [scan_from]. rewrite E. now apply scan_from_in_comment. }
  split; [exact E1|]. intros Hcl.
  change (opening :: body ++ [closing]) with ((opening :: body) ++ [closing]).
  rewrite scan_from_snoc, E1.
  rewrite scan_line_close by (now rewrite has_close_line).
  cbn [brace_depth issues]. rewrite <- Hin. apply state_eta.
Qed.

Lemma comment_block_is_skipped_witness :
  Forall (fun l => contains comment_close l = false)
    [str "print(1)"; str "}} {"] /\
  scan_from 3 (mk_state 0 [] false)
    [str "/* notes {"; str "print(1)"; str "}} {"; str "end */ print(2) {"]
  = mk_state 0 [] false.
Proof.
  assert (Hb : Forall (fun l => contains comment_close l = false)
                 [str "print(1)"; str "}} {"]).
  { repeat constructor. }
  split; [exact Hb|].
  apply (proj2 (comment_block_is_skipped (mk_state 0 [] false) 3
                  (str "/* notes {") (str "end */ print(2) {")
                  [str "print(1)"; str "}} {"]
                  eq_refl eq_refl eq_refl Hb)).
  reflexivity.
Defined.

(** ** Lines and newlines *)

Lemma split_lines_not_nil (s : text) : split_lines s <> [].
Proof.
  destruct s as [|c t]; cbn [split_lines]; [discriminate|].
  destruct (Ascii.eqb c newline); [discriminate|].
  destruct (split_lines t); discriminate.
Qed.

Lemma split_lines_snoc_newline (s : text) :
  split_lines (s ++ [newline]) = split_lines s ++ [[]].
Proof.
  induction s as [|c t IH]; cbn [app split_lines].
  - now rewrite Ascii.eqb_refl.
  - rewrite IH. destruct (Ascii.eqb c newline); [reflexivity|].
    pose proof (split_lines_not_nil t).
    destruct (split_lines t); [congruence | reflexivity].
Qed.

Lemma join_split (s : text) : join_lines (split_lines s) = s.
Proof.
  induction s as [|c t IH]; [reflexivity|].
  cbn [split_lines]. destruct (Ascii.eqb c newline) eqn:Hc.
  - apply Ascii.eqb_eq in Hc. subst c.
    pose proof (split_lines_not_nil t).
    cbn [join_lines]. destruct (split_lines t) eqn:E; [congruence|].
    cbn [app]. now rewrite IH.
  - pose proof (split_lines_not_nil t).
    destruct (split_lines t) as [|l ls] eqn:E; [congruence|].
    cbn [join_lines] in *. destruct ls; cbn [app]; now rewrite IH.
Qed.

Lemma split_join (ls : list text) :
  ls <> [] -> Forall (fun l => ~ In newline l) ls ->
  split_lines (join_lines ls) = ls.
Proof.
  induction ls as [|l ls IH]; intros Hne H; [congruence|].
  inversion H as [|? ? Hl Hls]; subst.
  destruct ls as [|l' ls].
  - cbn [join_lines]. clear IH H Hls Hne.
    induction l as [|c l IHl]; [reflexivity|].
    cbn [split_lines].
    assert (Hc : Ascii.eqb c newline = false).
    { apply Ascii.eqb_neq. intros ->. apply Hl. now left. }
    rewrite Hc, IHl; [reflexivity|]. intros Hin. apply Hl. now right.
  - change (join_lines (l :: l' :: ls))
      with (l ++ newline :: join_lines (l' :: ls)).
    rewrite split_lines_print by assumption.
    rewrite IH; [reflexivity | discriminate | assumption].
Qed.

Lemma split_lines_length (s : text) :
  length (split_lines s) = S (count newline s).
Proof.
  induction s as [|c t IH]; [reflexivity|].
  cbn [split_lines count]. destruct (Ascii.eqb c newline).
  - cbn [length]. now rewrite IH.
  - pose proof (split_lines_not_nil t).
    destruct (split_lines t); [congruence|]. cbn [length] in *. exact IH.
Qed.

(** X5.  Splitting a content into lines loses nothing: joining the
    lines with newlines gives the content back, there is one line more
    than there are newlines, no line holds a newline, and the split of
    a join of newline-free lines gives the lines back. *)
Theorem split_lines_round_trip :
  (forall s, join_lines (split_lines s) = s) /\
  (forall s, length (split_lines s) = S (count newline s)) /\
  (forall s l, In l (split_lines s) -> ~ In newline l) /\
  (forall ls, ls <> [] -> Forall (fun l => ~ In newline l) ls ->
     split_lines (join_lines ls) = ls).
Proof.
  split; [exact join_split|]. split; [exact split_lines_length|].
  split; [exact split_lines_no_newline | exact split_join].
Qed.

Lemma split_lines_round_trip_witness :
  In (str "b") (split_lines (str "a" ++ newline :: str "b")) /\
  ~ In newline (str "b") /\
  split_lines (join_lines [str "a"; str "b"]) = [str "a"; str "b"].
Proof.
  assert (H : In (str "b") (split_lines (str "a" ++ newline :: str "b"))).
  { right. now left. }
  split; [exact H|]. split.
  - exact (proj1 (proj2 (proj2 split_lines_round_trip)) _ _ H).
  - apply (proj2 (proj2 (proj2 split_lines_round_trip))).
    + discriminate.
    + repeat constructor; intros Hin; literal_free Hin.
Defined.

(** X6.  A newline at the end of the content does not change the
    result of the scan: the empty last line it adds is skipped. *)
Theorem trailing_newline_is_ignored (content : text) :
  scan_content (content ++ [newline]) = scan_content content.
Proof.
  unfold scan_content, scan_lines.
  rewrite split_lines_snoc_newline, scan_from_snoc.
  apply scan_line_skipped; [reflexivity | reflexivity | now left].
Qed.

(** ** The matcher *)

Lemma match_star_app (k : cclass) (rest rest' : text -> bool) (t : text) :
  (forall s, rest s = true -> rest' (s ++ t) = true) ->
  forall s, match_star k rest s = true -> match_star k rest' (s ++ t) = true.
Proof.
  intros Hr s. induction s as [|x s IH]; cbn [match_star app]; intros H.
  - cbn [orb] in H. apply Hr in H. cbn [app] in H.
    destruct t; cbn [match_star]; rewrite H; apply orb_true_r.
  - apply orb_true_iff in H as [H|H].
    + apply andb_true_iff in H as [Hx H]. rewrite Hx, (IH H). reflexivity.
    + apply Hr in H. cbn [app] in H. rewrite H. apply orb_true_r.
Qed.

Lemma re_match_app (p : pattern) (t : text) :
  forall s, re_match p s = true -> re_match p (s ++ t) = true.
Proof.
  induction p as [|it p IH]; intros s H; [reflexivity|].
  destruct it as [c|k|k]; cbn [re_match] in *.
  - destruct s as [|x s]; [discriminate|]. cbn [app].
    apply andb_true_iff in H as [Hx H]. now rewrite Hx, IH.
  - destruct s as [|x s]; [discriminate|]. cbn [app].
    apply andb_true_iff in H as [Hx H]. now rewrite Hx, IH.
  - revert H. apply match_star_app. exact IH.
Qed.

(** X7.  The matcher is a test of the start of the line: a line that
    matches still matches with anything appended to it, and the empty
    line does not match. *)
Theorem matcher_tests_a_prefix :
  (forall s t, is_exec s = true -> is_exec (s ++ t) = true) /\
  is_exec [] = false.
Proof.
  split; [|reflexivity].
  intros s t. unfold is_exec.
  induction exec_patterns as [|p ps IH]; [trivial|].
  cbn [existsb]. intros H. apply orb_true_iff in H as [H|H].
  - now rewrite re_match_app.
  - rewrite IH by assumption. apply orb_true_r.
Qed.

Lemma matcher_tests_a_prefix_witness :
  is_exec (str "if x") = true /\
  is_exec (str "if x" ++ str " { return }") = true.
Proof.
  assert (H : is_exec (str "if x") = true) by reflexivity.
  split; [exact H|].
  exact (proj1 matcher_tests_a_prefix (str "if x") (str " { return }") H).
Defined.

Lemma re_match_lit (k : text) (tl : pattern) :
  forall s, re_match (map Chr k ++ tl) s = true ->
  exists s', s = k ++ s' /\ re_match tl s' = true.
Proof.
  induction k as [|c k IH]; intros s H.
  - now exists s.
  - cbn [map app re_match] in H. destruct s as [|x s]; [discriminate|].
    apply andb_true_iff in H as [Hx H]. apply Ascii.eqb_eq in Hx. subst x.
    destruct (IH s H) as (s' & -> & Hs'). now exists s'.
Qed.

Lemma re_match_lit_app (k : text) (tl : pattern) (s : text) :
  re_match (map Chr k ++ tl) (k ++ s) = re_match tl s.
Proof.
  induction k as [|c k IH]; [reflexivity|].
  cbn [map app re_match]. now rewrite Ascii.eqb_refl, IH.
Qed.

Lemma startswith_app_self (k s : text) : startswith k (k ++ s) = true.
Proof.
  induction k as [|c k IH]; [reflexivity|].
  cbn [app startswith]. now rewrite Ascii.eqb_refl.
Qed.

Lemma startswith_firstn (p : text) : forall n s,
  length p <= n -> startswith p s = true -> startswith p (firstn n s) = true.
Proof.
  induction p as [|a p IH]; intros n s Hn H; [reflexivity|].
  destruct s as [|b s]; [discriminate|].
  destruct n as [|n]; [cbn [length] in Hn; lia|].
  cbn [firstn startswith] in *. apply andb_true_iff in H as [Hab H].
  rewrite Hab. apply IH; [cbn [length] in Hn; lia | assumption].
Qed.

Lemma is_exec_keyword (s : text) :
  is_exec s = true -> exists k, In k keywords /\ startswith k s = true.
Proof.
  unfold is_exec, exec_patterns, lit. cbn [existsb]. intros H.
  repeat (apply orb_true_iff in H as [H|H]);
    try discriminate H;
    apply re_match_lit in H as (s' & -> & _);
    first
      [ eexists; split; [|apply startswith_app_self];
        cbv [keywords call_keywords block_keywords space_keywords app In];
        solve [in_list]
      | exists (str "Task"); split; [|reflexivity];
        cbv [keywords call_keywords block_keywords space_keywords app In];
        solve [in_list] ].
Qed.

(** X8.  Only a line that starts with one of the sixteen literals is
    reported: the text of every issue of a file starts with one of
    them, and so does every line the matcher accepts.  A declaration
    line, which starts otherwise, is never reported. *)
Theorem issues_start_with_a_keyword :
  (forall s, is_exec s = true ->
     exists k, In k keywords /\ startswith k s = true) /\
  (forall lines n t, In (n, t) (issues (scan_lines lines)) ->
     exists k, In k keywords /\ startswith k t = true).
Proof.
  split; [exact is_exec_keyword|].
  intros lines n t H.
  apply scan_lines_issues in H as (m & line & _ & _ & Hr & ->).
  unfold recorded in Hr. apply andb_true_iff in Hr as [_ He].
  destruct (is_exec_keyword _ He) as (k & Hk & Hs).
  exists k. split; [assumption|].
  apply startswith_firstn; [|assumption].
  cbv [keywords call_keywords block_keywords space_keywords app In] in Hk.
  repeat (destruct Hk as [<-|Hk]; [cbv; lia|]). destruct Hk.
Qed.

Lemma issues_start_with_a_keyword_witness :
  In (1, str "print(1)") (issues (scan_lines [str "print(1)"])) /\
  exists k, In k keywords /\ startswith k (str "print(1)") = true.
Proof.
  assert (H : In (1, str "print(1)") (issues (scan_lines [str "print(1)"]))).
  { now left. }
  split; [exact H|].
  exact (proj2 issues_start_with_a_keyword [str "print(1)"] 1 (str "print(1)") H).
Defined.

Lemma match_star_spaces (rest : text -> bool) (w s : text) :
  spaces w -> rest s = true -> match_star CSpace rest (w ++ s) = true.
Proof.
  induction 1 as [|c w Hc Hw IH]; intros H.
  - cbn [app]. destruct s; cbn [match_star]; rewrite H; apply orb_true_r.
  - cbn [app match_star in_class]. now rewrite Hc, IH.
Qed.

Lemma is_exec_of_pattern (p : pattern) (s : text) :
  In p exec_patterns -> re_match p s = true -> is_exec s = true.
Proof.
  intros Hin H. unfold is_exec. apply existsb_exists. now exists p.
Qed.

(** X9.  The shapes the matcher accepts.  One of the five call names,
    any run of white space, and an open parenthesis; Task or do, any
    run of white space, and an open brace; Task, a dot, and a word
    character; one of the nine statement words and one white-space
    character: a line that starts so matches, whatever follows. *)
Theorem matcher_accepts_statement_shapes :
  (forall k w rest, In k call_keywords -> spaces w ->
     is_exec (k ++ w ++ "("%char :: rest) = true) /\
  (forall k w rest, In k block_keywords -> spaces w ->
     is_exec (k ++ w ++ "{"%char :: rest) = true) /\
  (forall c rest, isword c = true ->
     is_exec (str "Task." ++ c :: rest) = true) /\
  (forall k c rest, In k space_keywords -> isspace c = true ->
     is_exec (k ++ c :: rest) = true).
Proof.
  split; [|split; [|split]].
  - intros k w rest Hk Hw.
    apply (is_exec_of_pattern (map Chr k ++ [Star CSpace] ++ lit "(")).
    + cbv [call_keywords In] in Hk. unfold exec_patterns, lit.
      repeat (destruct Hk as [<-|Hk]; [cbn [In]; in_list|]). destruct Hk.
    + rewrite re_match_lit_app. cbn [app re_match].
      apply match_star_spaces; [assumption|].
      cbn [lit str list_ascii_of_string map re_match].
      now rewrite Ascii.eqb_refl.
  - intros k w rest Hk Hw.
    apply (is_exec_of_pattern (map Chr k ++ [Star CSpace] ++ lit "{")).
    + cbv [block_keywords In] in Hk. unfold exec_patterns, lit.
      repeat (destruct Hk as [<-|Hk]; [cbn [In]; in_list|]). destruct Hk.
    + rewrite re_match_lit_app. cbn [app re_match].
      apply match_star_spaces; [assumption|].
      cbn [lit str list_ascii_of_string map re_match].
      now rewrite Ascii.eqb_refl.
  - intros c rest Hc.
    apply (is_exec_of_pattern (lit "Task." ++ [Cls CWord])).
    + unfold exec_patterns. cbn [In]. in_list.
    + unfold lit. rewrite re_match_lit_app. cbn [app re_match in_class].
      now rewrite Hc.
  - intros k c rest Hk Hc.
    apply (is_exec_of_pattern (map Chr k ++ [Cls CSpace])).
    + cbv [space_keywords In] in Hk. unfold exec_patterns, lit.
      repeat (destruct Hk as [<-|Hk]; [cbn [In]; in_list|]). destruct Hk.
    + rewrite re_match_lit_app. cbn [app re_match in_class].
      now rewrite Hc.
Qed.

Lemma matcher_accepts_statement_shapes_witness :
  In (str "fatalError") call_keywords /\ spaces (str "  ") /\
  is_exec (str "fatalError" ++ str "  " ++ "("%char :: str "1)") = true.
Proof.
  assert (Hk : In (str "fatalError") call_keywords).
  { right. right. now left. }
  assert (Hw : spaces (str "  ")) by (repeat constructor).
  split; [exact Hk|]. split; [exact Hw|].
  exact (proj1 matcher_accepts_statement_shapes _ _ (str "1)") Hk Hw).
Defined.

(** ** Masking *)

Lemma count_cons (b c : ascii) (t : text) :
  count b (c :: t) = (if Ascii.eqb c b then 1 else 0) + count b t.
Proof. reflexivity. Qed.

Lemma mask_from_step (inside : bool) (c : ascii) (t : text) :
  mask_from inside (c :: t) =
  if inside then
    if Ascii.eqb c dquote then dquote :: mask_from false t
    else mask_from true t
  else if Ascii.eqb c dquote then
    if has_dquote t then dquote :: mask_from true t else c :: t
  else c :: mask_from false t.
Proof. reflexivity. Qed.

Lemma mask_from_count_le (b : ascii) (s : text) :
  forall inside, count b (mask_from inside s) <= count b s.
Proof.
  induction s as [|c t IH]; intros inside; [destruct inside; apply le_n|].
  rewrite mask_from_step, count_cons.
  pose proof (IH true) as Ht. pose proof (IH false) as Hf.
  destruct inside.
  - destruct (Ascii.eqb c dquote) eqn:Hc.
    + apply Ascii.eqb_eq in Hc. subst c. rewrite count_cons. lia.
    + lia.
  - destruct (Ascii.eqb c dquote) eqn:Hc.
    + apply Ascii.eqb_eq in Hc. subst c.
      destruct (has_dquote t); rewrite count_cons; lia.
    + rewrite count_cons. lia.
Qed.

Lemma mask_from_length_le (s : text) :
  forall inside, length (mask_from inside s) <= length s.
Proof.
  induction s as [|c t IH]; intros inside; [destruct inside; apply le_n|].
  rewrite mask_from_step. pose proof (IH true). pose proof (IH false).
  destruct inside; destruct (Ascii.eqb c dquote);
    try destruct (has_dquote t); cbn [length]; lia.
Qed.

Lemma mask_from_quotes (s : text) :
  count dquote (mask_from false s) = count dquote s /\
  (has_dquote s = true -> count dquote (mask_from true s) = count dquote s).
Proof.
  induction s as [|c t [IHf IHt]]; [split; [reflexivity | discriminate]|].
  rewrite !mask_from_step, has_dquote_cons, !count_cons.
  destruct (Ascii.eqb c dquote) eqn:Hc.
  - apply Ascii.eqb_eq in Hc. subst c. split.
    + destruct (has_dquote t) eqn:Ht.
      * rewrite count_cons, Ascii.eqb_refl. now rewrite IHt.
      * now rewrite count_cons, Ascii.eqb_refl.
    + intros _. rewrite count_cons, Ascii.eqb_refl. now rewrite IHf.
  - split.
    + rewrite count_cons, Hc. now rewrite IHf.
    + cbn [orb]. intros Ht. now rewrite IHt.
Qed.

Lemma mask_from_idempotent (s : text) :
  mask_from false (mask_from false s) = mask_from false s /\
  (has_dquote s = true ->
   mask_from false (dquote :: mask_from true s) = dquote :: mask_from true s).
Proof.
  induction s as [|c t [IHf IHt]]; [split; [reflexivity | discriminate]|].
  rewrite has_dquote_cons.
  destruct (Ascii.eqb c dquote) eqn:Hc.
  - apply Ascii.eqb_eq in Hc. subst c. split.
    + rewrite (mask_from_step false dquote t), Ascii.eqb_refl.
      destruct (has_dquote t) eqn:Ht.
      * now apply IHt.
      * now rewrite mask_from_step, Ascii.eqb_refl, Ht.
    + intros _. rewrite (mask_from_step true dquote t), Ascii.eqb_refl.
      rewrite (mask_from_step false dquote), Ascii.eqb_refl.
      rewrite has_dquote_cons, Ascii.eqb_refl. cbn [orb].
      rewrite (mask_from_step true dquote), Ascii.eqb_refl.
      now rewrite IHf.
  - split.
    + rewrite (mask_from_step false c t), Hc.
      rewrite (mask_from_step false c), Hc. now rewrite IHf.
    + cbn [orb]. intros Ht.
      rewrite (mask_from_step true c t), Hc. now apply IHt.
Qed.

(** X10.  Masking only removes text.  The masked line is never longer
    than the line and holds no character more often than the line does,
    so a line can raise the depth by at most its count of open braces
    and lower it by at most its count of close braces; the count of
    double quotes stays the same; and masking a masked line changes
    nothing. *)
Theorem masking_only_removes :
  (forall s, length (mask s) <= length s) /\
  (forall b s, count b (mask s) <= count b s) /\
  (forall s, count dquote (mask s) = count dquote s) /\
  (forall s, mask (mask s) = mask s) /\
  (forall line,
     (- Z.of_nat (count close_brace (strip line)) <= brace_delta line
      <= Z.of_nat (count open_brace (strip line)))%Z).
Proof.
  split; [intros s; apply mask_from_length_le|].
  split; [intros b s; apply mask_from_count_le|].
  split; [intros s; apply (proj1 (mask_from_quotes s))|].
  split; [intros s; apply (proj1 (mask_from_idempotent s))|].
  intros line. unfold brace_delta.
  pose proof (mask_from_count_le open_brace (strip line) false).
  pose proof (mask_from_count_le close_brace (strip line) false).
  unfold mask. lia.
Qed.

(** ** File discovery *)

(** Induction over a tree, with the property for every entry of a
    listing. *)
Lemma node_induction (P : node -> Prop) :
  P File -> P (Dir None) ->
  (forall entries, Forall (fun e => P (snd e)) entries -> P (Dir (Some entries))) ->
  (forall target, P target -> P (Link target)) ->
  forall n, P n.
Proof.
  intros HF HN HS HL.
  refine (fix go (n : node) : P n :=
            match n with
            | File => HF
            | Dir None => HN
            | Dir (Some entries) =>
                HS entries
                  ((fix all (es : list (text * node))
                      : Forall (fun e => P (snd e)) es :=
                      match es with
                      | [] => Forall_nil _
                      | e :: rest => Forall_cons e (go (snd e)) (all rest)
                      end) entries)
            | Link target => HL target (go target)
            end).
Qed.

Lemma os_walk_dir (top : text) (entries : list (text * node)) :
  os_walk top (Dir (Some entries)) =
  (top,
   map fst (filter (fun e => is_dir (snd e)) entries),
   map fst (filter (fun e => negb (is_dir (snd e))) entries))
  :: flat_map (walk_child top) entries.
Proof.
  cbn [os_walk]. f_equal.
  induction entries as [|[name child] rest IH]; [reflexivity|].
  cbn [flat_map]. rewrite <- IH. unfold walk_child. cbn [fst snd].
  destruct child; reflexivity.
Qed.

Lemma swift_paths_app (l1 l2 : list (text * list text * list text)) :
  flat_map (fun '(r, _, files) =>
              map (path_join r) (filter (endswith swift_suffix) files))
           (l1 ++ l2)
  = flat_map (fun '(r, _, files) =>
              map (path_join r) (filter (endswith swift_suffix) files)) l1
    ++ flat_map (fun '(r, _, files) =>
              map (path_join r) (filter (endswith swift_suffix) files)) l2.
Proof. apply flat_map_app. Qed.

Lemma swift_paths_dir (top : text) (entries : list (text * node)) :
  swift_paths top (Dir (Some entries)) =
  map (path_join top)
    (filter (endswith swift_suffix)
       (map fst (filter (fun e => negb (is_dir (snd e))) entries)))
  ++ flat_map (child_paths top) entries.
Proof.
  unfold swift_paths. rewrite os_walk_dir. cbn [flat_map]. f_equal.
  induction entries as [|e rest IH]; [reflexivity|].
  cbn [flat_map]. rewrite swift_paths_app, IH. f_equal.
  unfold child_paths, walk_child, swift_paths.
  destruct (snd e); reflexivity.
Qed.

Lemma swift_paths_unlisted (top : text) :
  swift_paths top File = [] /\ swift_paths top (Dir None) = [].
Proof. split; reflexivity. Qed.

Lemma swift_paths_link (top : text) (target : node) :
  swift_paths top (Link target) = swift_paths top target.
Proof. reflexivity. Qed.

Lemma swift_paths_found (n : node) :
  forall top p, In p (swift_paths top n) <-> found top n p.
Proof.
  induction n as [| |entries IH|target IH] using node_induction; intros top p.
  - split; [intros [] | intros H; inversion H].
  - split; [intros [] | intros H; inversion H].
  - rewrite swift_paths_dir, in_app_iff. split.
    + intros [H|H].
      * apply in_map_iff in H as (f & <- & H).
        apply filter_In in H as [H Hs].
        apply in_map_iff in H as ([f' c] & Hf & H). cbn [fst] in Hf. subst f'.
        apply filter_In in H as [H Hc]. cbn [snd] in Hc.
        apply negb_true_iff in Hc.
        now apply (found_here top entries f c).
      * apply in_flat_map in H as ([d c] & He & H).
        unfold child_paths in H. cbn [fst snd] in H.
        rewrite Forall_forall in IH. specialize (IH _ He). cbn [snd] in IH.
        destruct c as [|sub|t]; [destruct H | | destruct H].
        apply IH in H. now apply (found_below top entries d sub).
    + intros H. inversion H as [? ? f c Hf Hc Hs|? ? d sub ? He Hp|]; subst.
      * left. apply in_map. apply filter_In. split; [|assumption].
        apply in_map_iff. exists (f, c). split; [reflexivity|].
        apply filter_In. split; [assumption|]. cbn [snd]. now rewrite Hc.
      * right. apply in_flat_map. exists (d, Dir sub). split; [assumption|].
        unfold child_paths. cbn [fst snd].
        rewrite Forall_forall in IH. now apply (IH _ He).
  - rewrite swift_paths_link, IH. split.
    + now apply found_through.
    + intros H. now inversion H.
Qed.

(** X11.  What the discovery finds.  A path is collected exactly when
    it is the path, built with the joins of the walk, of an entry that
    is no directory (a file, or a link that does not resolve to a
    directory), whose name ends with the suffix, and that is reached
    from the root through listed directories that are no symbolic
    links; the root itself may be one.  Nothing behind a link to a
    directory is collected. *)
Theorem discovery_finds_the_swift_files (root : node) (p : text) :
  (In p (swift_files root) <-> found src_dir root p) /\
  (forall top d target before after,
     is_dir target = true ->
     swift_paths top (Dir (Some (before ++ (d, Link target) :: after)))
     = swift_paths top (Dir (Some (before ++ after)))).
Proof.
  split; [apply swift_paths_found|].
  intros top d target before after Ht.
  rewrite !swift_paths_dir, !filter_app, !flat_map_app.
  cbn [filter flat_map snd is_dir negb app]. rewrite Ht. cbn [negb].
  unfold child_paths at 2. cbn [snd]. reflexivity.
Qed.

Lemma discovery_finds_the_swift_files_witness :
  found src_dir listing_ab (path_join src_dir (str "a.swift")) /\
  In (path_join src_dir (str "a.swift")) (swift_files listing_ab) /\
  is_dir (Link listing_ab) = true /\
  swift_paths src_dir
    (Dir (Some ([(str "a.swift", File)]
                ++ (str "Shared", Link listing_ab) :: [])))
  = swift_paths src_dir (Dir (Some ([(str "a.swift", File)] ++ []))).
Proof.
  assert (H : found src_dir listing_ab (path_join src_dir (str "a.swift"))).
  { apply (found_here _ _ _ File); [now left | reflexivity | reflexivity]. }
  pose proof (discovery_finds_the_swift_files listing_ab
                (path_join src_dir (str "a.swift"))) as (Hf & Hl).
  split; [exact H|]. split; [exact (proj2 Hf H)|].
  split; [reflexivity|].
  apply (Hl src_dir (str "Shared") (Link listing_ab)
           [(str "a.swift", File)] []).
  reflexivity.
Defined.

Lemma startswith_app (p s t : text) :
  startswith p s = true -> startswith p (s ++ t) = true.
Proof.
  revert s. induction p as [|a p IH]; intros s H; [reflexivity|].
  destruct s as [|b s]; [discriminate|]. cbn [app startswith] in *.
  apply andb_true_iff in H as [Hab H]. now rewrite Hab, IH.
Qed.

Lemma endswith_app (p x s : text) :
  endswith p s = true -> endswith p (x ++ s) = true.
Proof.
  unfold endswith. intros H. rewrite rev_app_distr. now apply startswith_app.
Qed.

Lemma endswith_path_join (p a b : text) :
  endswith p b = true -> endswith p (path_join a b) = true.
Proof.
  intros H. unfold path_join.
  destruct (startswith slash b); [assumption|].
  destruct (match a with [] => true | _ :: _ => false end || endswith slash a).
  - now apply endswith_app.
  - apply endswith_app. now apply endswith_app.
Qed.

Lemma found_suffix (top : text) (n : node) (p : text) :
  found top n p -> endswith swift_suffix p = true.
Proof.
  induction 1 as [top entries f c _ _ Hs| |]; try assumption.
  now apply endswith_path_join.
Qed.

Lemma run_files_agree (o1 o2 : text -> option text) (paths : list text) :
  (forall p, In p paths -> o1 p = o2 p) ->
  forall out, run_files o1 paths out = run_files o2 paths out.
Proof.
  induction paths as [|q paths IH]; intros H out; [reflexivity|].
  cbn [run_files]. rewrite <- (H q) by now left.
  destruct (o1 q); [|reflexivity].
  apply IH. intros p Hp. apply H. now right.
Qed.

(** X12.  Only files whose path ends with the suffix are ever opened:
    every collected path ends with it, and two runs over the same tree
    whose files agree on the paths with the suffix end in the same
    outcome, whatever the other files hold or whether they can be read
    at all. *)
Theorem only_swift_files_are_read (root : node) :
  Forall (fun p => endswith swift_suffix p = true) (swift_files root) /\
  (forall o1 o2 : text -> option text,
     (forall p, endswith swift_suffix p = true -> o1 p = o2 p) ->
     main root o1 = main root o2).
Proof.
  assert (H : forall p, In p (swift_files root) ->
                        endswith swift_suffix p = true).
  { intros p Hp. apply swift_paths_found in Hp. now apply found_suffix in Hp. }
  split; [now apply Forall_forall|].
  intros o1 o2 Hag. unfold main. apply run_files_agree.
  intros p Hp. apply Hag, H. now apply In_sorted.
Qed.

Lemma only_swift_files_are_read_witness :
  (forall p, endswith swift_suffix p = true ->
     (fun q : text => if endswith swift_suffix q then Some (str "print(1)")
                      else None) p
     = (fun _ : text => Some (str "print(1)")) p) /\
  main listing_ab
    (fun q => if endswith swift_suffix q then Some (str "print(1)") else None)
  = main listing_ab (fun _ => Some (str "print(1)")).
Proof.
  assert (H : forall p, endswith swift_suffix p = true ->
     (fun q : text => if endswith swift_suffix q then Some (str "print(1)")
                      else None) p
     = (fun _ : text => Some (str "print(1)")) p).
  { intros p Hp. cbn beta. now rewrite Hp. }
  split; [exact H|].
  exact (proj2 (only_swift_files_are_read listing_ab) _ _ H).
Defined.

Lemma pruned_listed (n n' : node) :
  pruned n n' -> exists es es', n = Dir (Some es) /\ n' = Dir (Some es').
Proof. intros []; eexists; eexists; split; reflexivity. Qed.

Lemma pruned_paths (n n' : node) :
  pruned n n' -> forall top, swift_paths top n = swift_paths top n'.
Proof.
  induction 1 as [before d after|before d child child' after Hp IH];
    intros top.
  - rewrite !swift_paths_dir, !filter_app, !flat_map_app.
    cbn [filter flat_map snd is_dir negb].
    unfold child_paths at 2. cbn [snd fst].
    now rewrite (proj2 (swift_paths_unlisted _)).
  - destruct (pruned_listed _ _ Hp) as (es & es' & -> & ->).
    rewrite !swift_paths_dir, !filter_app, !flat_map_app.
    cbn [filter flat_map snd is_dir negb].
    unfold child_paths at 2 5. cbn [snd fst]. now rewrite IH.
Qed.

(** X13.  A subdirectory that cannot be listed is passed over in
    silence, at any depth below the root: a tree and the same tree
    without that entry give the same collected paths in the same
    order, from any top, and a whole run over the one ends in the same
    outcome as a run over the other. *)
Theorem unreadable_subdirectory_is_skipped (root root' : node) :
  pruned root root' ->
  (forall top, swift_paths top root = swift_paths top root') /\
  swift_files root = swift_files root' /\
  (forall open_file, main root open_file = main root' open_file).
Proof.
  intros H. pose proof (pruned_paths _ _ H) as E.
  split; [exact E|].
  assert (E' : swift_files root = swift_files root') by apply (E src_dir).
  split; [exact E'|].
  intros open_file. unfold main. now rewrite E'.
Qed.

Lemma unreadable_subdirectory_is_skipped_witness :
  pruned tree_with_unlisted tree_without_unlisted /\
  swift_files tree_with_unlisted = swift_files tree_without_unlisted /\
  main tree_with_unlisted (fun _ => Some (str "print(1)"))
  = main tree_without_unlisted (fun _ => Some (str "print(1)")).
Proof.
  assert (H : pruned tree_with_unlisted tree_without_unlisted).
  { apply (pruned_below [] (str "App") _ _ [(str "b.swift", File)]).
    apply (pruned_here [(str "a.swift", File)] (str "Locked") []). }
  split; [exact H|].
  pose proof (unreadable_subdirectory_is_skipped _ _ H) as (_ & E & M).
  split; [exact E | exact (M _)].
Defined.

(** ** Determinism *)

Lemma relisted_is_dir (n n' : node) : relisted n n' -> is_dir n = is_dir n'.
Proof. induction 1; cbn [is_dir]; congruence. Qed.

Lemma Permutation_filter {A} (f : A -> bool) (l l' : list A) :
  Permutation l l' -> Permutation (filter f l) (filter f l').
Proof.
  induction 1 as [|x l l' _ IH|x y l|l l' l'' _ IH1 _ IH2]; cbn [filter].
  - constructor.
  - destruct (f x); [now constructor | assumption].
  - destruct (f x), (f y); try reflexivity. apply perm_swap.
  - now transitivity (filter f l').
Qed.

Lemma relisted_child_paths (top : text) (e e' : text * node) :
  fst e = fst e' -> relisted (snd e) (snd e') ->
  (forall n' t, relisted (snd e) n' ->
     Permutation (swift_paths t (snd e)) (swift_paths t n')) ->
  Permutation (child_paths top e) (child_paths top e').
Proof.
  destruct e as [d c], e' as [d' c']. cbn [fst snd]. intros <- R IH.
  unfold child_paths. cbn [fst snd].
  inversion R; subst; try reflexivity.
  now apply IH.
Qed.

Lemma relisted_files (es es' : list (text * node)) :
  Forall2 (fun e e' => fst e = fst e' /\ relisted (snd e) (snd e')) es es' ->
  map fst (filter (fun e => negb (is_dir (snd e))) es)
  = map fst (filter (fun e => negb (is_dir (snd e))) es').
Proof.
  induction 1 as [|e e' l l' [Hn Hr] _ IH]; [reflexivity|].
  cbn [filter]. rewrite (relisted_is_dir _ _ Hr).
  destruct (negb (is_dir (snd e'))); cbn [map]; now rewrite ?Hn, IH.
Qed.

Lemma relisted_children (top : text) (es es' : list (text * node)) :
  Forall (fun e => forall n' t, relisted (snd e) n' ->
            Permutation (swift_paths t (snd e)) (swift_paths t n')) es ->
  Forall2 (fun e e' => fst e = fst e' /\ relisted (snd e) (snd e')) es es' ->
  Permutation (flat_map (child_paths top) es) (flat_map (child_paths top) es').
Proof.
  intros IH F2. induction F2 as [|e e' l l' [Hn Hr] _ IHF]; [reflexivity|].
  inversion IH as [|? ? He Hl]; subst. cbn [flat_map].
  apply Permutation_app; [|now apply IHF].
  now apply relisted_child_paths.
Qed.

Lemma relisted_paths (n : node) :
  forall n' top, relisted n n' ->
  Permutation (swift_paths top n) (swift_paths top n').
Proof.
  induction n as [| |entries IH|target IH] using node_induction;
    intros n' top R.
  - inversion R; subst. reflexivity.
  - inversion R; subst. reflexivity.
  - inversion R as [| | |es es' es'' F2 P]; subst.
    rewrite !swift_paths_dir.
    rewrite (relisted_files _ _ F2).
    apply Permutation_app.
    + apply Permutation_map, Permutation_filter, Permutation_map.
      now apply Permutation_filter.
    + transitivity (flat_map (child_paths top) es').
      * now apply relisted_children.
      * now apply Permutation_flat_map.
  - inversion R; subst. rewrite !swift_paths_link. now apply IH.
Qed.

Lemma relisted_refl (n : node) : relisted n n.
Proof.
  induction n as [| |entries IH|target IH] using node_induction.
  - constructor.
  - constructor.
  - apply (relisted_dir entries entries entries); [|reflexivity].
    induction IH as [|e l He _ IHl]; constructor; [now split | assumption].
  - now constructor.
Qed.

(** C9.  The scanner is deterministic.  The run is a function of the
    tree and of the contents of the files, and it does not depend on
    the order in which the directories list their entries: over the
    same tree listed in another order, at any depth, the walk finds
    the same paths; the sort keeps exactly the paths that were found
    and puts them in lexicographic order, which is the same list for
    both listings; and the two runs end in the same outcome, byte for
    byte. *)
Theorem report_ignores_listing_order
  (root1 root2 : node) (open_file : text -> option text) :
  relisted root1 root2 ->
  Permutation (swift_files root1) (swift_files root2) /\
  Permutation (sorted (swift_files root1)) (swift_files root1) /\
  StronglySorted text_le (sorted (swift_files root1)) /\
  sorted (swift_files root1) = sorted (swift_files root2) /\
  main root1 open_file = main root2 open_file.
Proof.
  intros R.
  assert (P : Permutation (swift_files root1) (swift_files root2)).
  { apply (relisted_paths root1 root2 src_dir R). }
  pose proof (sorted_of_perm _ _ P) as E.
  split; [exact P|]. split; [apply sorted_perm|].
  split; [apply sorted_ordered|]. split; [exact E|].
  unfold main. now rewrite E.
Qed.

Lemma report_ignores_listing_order_witness :
  relisted tree_listed tree_relisted /\
  swift_files tree_listed <> swift_files tree_relisted /\
  main tree_listed (fun _ => Some (str "print(1)"))
  = main tree_relisted (fun _ => Some (str "print(1)")).
Proof.
  assert (R : relisted tree_listed tree_relisted).
  { unfold tree_listed, tree_relisted.
    eapply relisted_dir; [|apply perm_swap].
    constructor; [|constructor; [|constructor]].
    - split; [reflexivity|]. cbn [snd].
      eapply relisted_dir; [|apply perm_swap].
      repeat constructor.
    - split; [reflexivity | constructor]. }
  split; [exact R|]. split; [vm_compute; discriminate|].
  exact (proj2 (proj2 (proj2 (proj2
           (report_ignores_listing_order tree_listed tree_relisted
              (fun _ => Some (str "print(1)")) R))))).
Defined.

(** ** The run *)

Lemma run_files_raised_at (open_file : text -> option text)
  (earlier later : list text) (p : text) :
  (forall q, In q earlier -> open_file q <> None) ->
  open_file p = None ->
  forall out,
    run_files open_file (earlier ++ p :: later) out
    = Raised (out ++ flat_map (file_block open_file) earlier).
Proof.
  intros He Hp. induction earlier as [|q earlier IH]; intros out.
  - cbn [app run_files flat_map]. now rewrite Hp, app_nil_r.
  - cbn [app run_files flat_map].
    destruct (open_file q) as [content|] eqn:Hq.
    + rewrite IH by (intros r Hr; apply He; now right).
      unfold file_block at 2. now rewrite Hq, app_assoc.
    + exfalso. apply (He q); [now left | assumption].
Qed.

(** X14.  The run ends at the first file, in sorted order, that cannot
    be read: what was printed for the files before it stays printed,
    the files after it are not looked at, and neither the empty line
    nor the marker is printed. *)
Theorem run_stops_at_first_unreadable_file
  (root : node) (open_file : text -> option text)
  (earlier later : list text) (p : text) :
  sorted (swift_files root) = earlier ++ p :: later ->
  (forall q, In q earlier -> open_file q <> None) ->
  open_file p = None ->
  main root open_file = Raised (flat_map (file_block open_file) earlier).
Proof.
  intros E He Hp. unfold main. rewrite E.
  now rewrite run_files_raised_at.
Qed.

Lemma run_stops_at_first_unreadable_file_witness :
  sorted (swift_files listing_ba) =
    [str "weather/Sources/a.swift"] ++ str "weather/Sources/b.swift" :: [] /\
  main listing_ba
    (fun q => if endswith (str "a.swift") q then Some (str "print(1)") else None)
  = Raised (flat_map
              (file_block (fun q => if endswith (str "a.swift") q
                                    then Some (str "print(1)") else None))
              [str "weather/Sources/a.swift"]).
Proof.
  assert (E : sorted (swift_files listing_ba) =
    [str "weather/Sources/a.swift"] ++ str "weather/Sources/b.swift" :: []).
  { reflexivity. }
  split; [exact E|].
  apply (run_stops_at_first_unreadable_file listing_ba _ _ _ _ E).
  - intros q [<-|[]]. discriminate.
  - reflexivity.
Defined.

Lemma no_match_no_issue (lines : list text) :
  Forall (fun line => is_exec (strip line) = false) lines ->
  issues (scan_lines lines) = [].
Proof.
  intros H. destruct (issues (scan_lines lines)) as [|[k t] rest] eqn:E;
    [reflexivity|].
  assert (Hin : In (k, t) (issues (scan_lines lines))) by (rewrite E; now left).
  apply scan_lines_issues in Hin as (n & line & _ & Hn & Hr & _).
  unfold recorded in Hr. apply andb_true_iff in Hr as [_ He].
  apply nth_error_In in Hn. rewrite Forall_forall in H.
  rewrite (H line Hn) in He. discriminate.
Qed.

(** X15.  A run without findings.  When every discovered file can be
    read and none of its trimmed lines matches a pattern, no file
    contributes to the output, which is the empty line and the marker
    line and nothing else. *)
Theorem report_without_findings (root : node) (open_file : text -> option text) :
  (forall p, In p (swift_files root) ->
     exists content,
       open_file p = Some content /\
       Forall (fun line => is_exec (strip line) = false) (split_lines content)) ->
  main root open_file = Completed (newline :: print marker).
Proof.
  intros H. unfold main. rewrite run_files_completed.
  - cbn [app]. f_equal.
    assert (E : forall l, (forall q, In q l -> In q (swift_files root)) ->
                flat_map (file_block open_file) l = []).
    { induction l as [|q l IH]; intros Hl; [reflexivity|].
      cbn [flat_map]. rewrite IH by (intros r Hr; apply Hl; now right).
      rewrite app_nil_r. unfold file_block.
      destruct (H q (Hl q (or_introl eq_refl))) as (content & -> & Hc).
      unfold scan_content. now rewrite no_match_no_issue. }
    rewrite E; [reflexivity|]. intros q Hq. now apply In_sorted.
  - intros p Hp Hn. apply (proj1 (In_sorted _ _)) in Hp.
    destruct (H p Hp) as (content & Hc & _). congruence.
Qed.

Lemma report_without_findings_witness :
  (forall p, In p (swift_files listing_ab) ->
     exists content,
       (fun _ : text => Some (str "import Module")) p = Some content /\
       Forall (fun line => is_exec (strip line) = false) (split_lines content)) /\
  main listing_ab (fun _ => Some (str "import Module"))
  = Completed (newline :: print marker).
Proof.
  assert (H : forall p, In p (swift_files listing_ab) ->
     exists content,
       (fun _ : text => Some (str "import Module")) p = Some content /\
       Forall (fun line => is_exec (strip line) = false) (split_lines content)).
  { intros p _. exists (str "import Module"). split; [reflexivity|].
    repeat constructor. }
  split; [exact H|].
  exact (report_without_findings listing_ab _ H).
Defined.
